(** * ilqgames: strategies, strategy views and the one-player reachability example

    A shallow embedding of

      - [include/ilqgames/utils/types.h]     ([sgn], the scalar type aliases),
      - [include/ilqgames/utils/strategy.h]  ([StrategyRef], [Strategy]),
      - [src/one_player_reachability_example.cpp] (the example's constants and
        the part of its constructor that sets the initial state and the
        initial strategies),

    followed by the properties of these definitions.

    Conventions.
      - [size_t] is a 64-bit unsigned integer, [Eigen::Index] a 64-bit signed
        one and [Dimension] a 32-bit [int]; all three are carried by [Z] and
        every conversion and wrap-around is written out.
      - [float] is IEEE-754 binary32, computed with the Standard Library's
        [SpecFloat] at precision 24 and maximal exponent 128.
      - Code that can fail is in the [option] monad: [None] stands for a
        violated Eigen precondition ([eigen_assert]), an out-of-range
        subscript of a [std::vector], or a signed overflow. *)

From stdpp Require Import base option list numbers.
From Stdlib Require Import ZArith Lia.
From Stdlib Require Import Floats.SpecFloat.

Local Open Scope Z_scope.

(** ** Machine integers *)

Definition SIZE_MAX : Z := 2 ^ 64 - 1.
Definition INT_MAX : Z := 2 ^ 31 - 1.
Definition INT_MIN : Z := - 2 ^ 31.

(** Conversion to [size_t]: reduction modulo [2^64]. *)
Definition to_size_t (z : Z) : Z := z mod 2 ^ 64.

(** Conversion of a [size_t] to [Eigen::Index] ([std::ptrdiff_t]): the
    two's-complement reading of the same 64 bits. *)
Definition to_Index (z : Z) : Z :=
  let u := z mod 2 ^ 64 in if decide (u < 2 ^ 63) then u else u - 2 ^ 64.

(** [int * int]; a product that does not fit [int] is undefined behaviour. *)
Definition int_mul (a b : Z) : option Z :=
  if decide (INT_MIN ≤ a * b ≤ INT_MAX) then Some (a * b) else None.

(** Outcome of a function that contains a glog [CHECK] and may touch
    [front()] of an empty [std::vector]. *)
Inductive outcome (A : Type) : Type :=
  | Returns (a : A)
  | CheckFailure
  | UndefinedBehaviour.
Arguments Returns {A} a.
Arguments CheckFailure {A}.
Arguments UndefinedBehaviour {A}.

(** [for (size_t ii = start; ii < start + count; ii++) body], threading the
    loop state [s] and stopping at the first failure. *)
Fixpoint for_loop {S : Type} (start : nat) (count : nat)
    (body : nat → S → option S) (s : S) : option S :=
  match count with
  | O => Some s
  | Datatypes.S count' => s' ← body start s; for_loop (Datatypes.S start) count' body s'
  end.

(** [v[i] = x] on a [std::vector]: the subscript must be in range. *)
Definition assign_at {A : Type} (v : list A) (i : nat) (x : A) : option (list A) :=
  if decide (i < length v)%nat then Some (<[i := x]> v) else None.

(** ** [float]: IEEE-754 binary32 *)

Definition float : Type := spec_float.

Definition fzero : float := S754_zero false.
Definition fadd : float → float → float := SFadd 24 128.
Definition fsub : float → float → float := SFsub 24 128.
Definition fmul : float → float → float := SFmul 24 128.
Definition fdiv : float → float → float := SFdiv 24 128.
Definition fopp : float → float := SFopp.
Definition flt : float → float → bool := SFltb.
Definition feqb : float → float → bool := SFeqb.

(** Conversion of an integer to [float] (round to nearest, ties to even). *)
Definition float_of_Z (z : Z) : float := binary_normalize 24 128 z 0 false.

(** Neither an infinity nor a NaN. *)
Definition is_finite (x : float) : bool :=
  match x with
  | S754_zero _ | S754_finite _ _ _ => true
  | S754_infinity _ | S754_nan => false
  end.

(** The literals of the source are all of type [double] (IEEE-754 binary64)
    and are narrowed to [float] by the initialisation of a [float]
    constant. *)

(** The decimal literal [n / 10^k] ([n > 0]) as a [double]: the correctly
    rounded quotient of the two integers. *)
Definition double_literal (n : positive) (k : Z) : spec_float :=
  SFdiv 53 1024 (S754_finite false n 0) (S754_finite false (Z.to_pos (10 ^ k)) 0).

(** The literals [0.0] and [0]. *)
Definition double_zero : spec_float := S754_zero false.

(** Narrowing conversion [double -> float]. *)
Definition float_of_double (d : spec_float) : float :=
  match d with
  | S754_finite s m e => binary_round 24 128 s m e
  | _ => d
  end.

(** [static_cast<size_t>(x)] for a [float] [x]: truncation towards zero;
    undefined when the truncated value does not fit [size_t]. *)
Definition size_t_of_float (x : float) : option Z :=
  match x with
  | S754_zero _ => Some 0
  | S754_finite s m e =>
      let mag := if decide (0 ≤ e) then Z.pos m * 2 ^ e else Z.pos m / 2 ^ (- e) in
      let v := if s then - mag else mag in
      if decide (0 ≤ v ≤ SIZE_MAX) then Some v else None
  | S754_infinity _ | S754_nan => None
  end.

(** ** Eigen: dense vectors and matrices of [float]

    Eigen is an external library; what follows models the part of its
    documented behaviour that the strategy code relies on.  Dense storage is
    column-major, as in Eigen's default. *)

Module Eigen.

(** [VectorXf]: its coefficients; [size()] is the length of the list. *)
Abbreviation VectorXf := (list float).

(** [MatrixXf]: dimensions and the coefficients in column-major order. *)
Record MatrixXf : Type := mkMatrix {
  rows : Z;
  cols : Z;
  coeffs : list float
}.

(** [M.size()]. *)
Definition size (M : MatrixXf) : Z := rows M * cols M.

(** A default-constructed [MatrixXf] is 0 x 0. *)
Definition empty_matrix : MatrixXf := mkMatrix 0 0 [].

(** [M(i, j)]. *)
Definition coeff (M : MatrixXf) (i j : nat) : float :=
  default fzero (coeffs M !! (i + j * Z.to_nat (rows M))%nat).

(** [MatrixXf::Zero(r, c)]; the dimensions must not be negative. *)
Definition Zero (r c : Z) : option MatrixXf :=
  if decide (0 ≤ r ∧ 0 ≤ c)
  then Some (mkMatrix r c (replicate (Z.to_nat (r * c)) fzero))
  else None.

(** [VectorXf::Zero(n)]. *)
Definition ZeroVector (n : Z) : option VectorXf :=
  if decide (0 ≤ n) then Some (replicate (Z.to_nat n) fzero) else None.

(** Coefficient-wise binary operation on vectors of equal size. *)
Definition cwise (f : float → float → float) (a b : VectorXf) : option VectorXf :=
  if decide (length a = length b) then Some (zip_with f a b) else None.

(** [a + b] and [a - b]. *)
Definition vadd : VectorXf → VectorXf → option VectorXf := cwise fadd.
Definition vsub : VectorXf → VectorXf → option VectorXf := cwise fsub.

(** [-M]. *)
Definition mopp (M : MatrixXf) : MatrixXf :=
  mkMatrix (rows M) (cols M) (fopp <$> coeffs M).

(** Row [i] of [M] times [x], accumulated from column [j] on.  The product
    of a matrix and a vector is evaluated into a temporary that is first
    set to zero, so the accumulation starts from [+0]. *)
Fixpoint dot_from (M : MatrixXf) (i j : nat) (x : list float) (acc : float) : float :=
  match x with
  | [] => acc
  | xj :: x' => dot_from M i (S j) x' (fadd acc (fmul (coeff M i j) xj))
  end.

Definition row_dot (M : MatrixXf) (i : nat) (x : VectorXf) : float :=
  dot_from M i 0 x fzero.

(** [M * x]; needs [M.cols() == x.size()]. *)
Definition mat_vec (M : MatrixXf) (x : VectorXf) : option VectorXf :=
  if decide (cols M = Z.of_nat (length x))
  then Some ((λ i, row_dot M i x) <$> seq 0 (Z.to_nat (rows M)))
  else None.

(** [Eigen::Map<MatrixXf>]: a view of [map_rows * map_cols] consecutive
    coefficients of a buffer, from position [map_ptr] on.  It owns
    nothing. *)
Record MapMatrixXf : Type := mkMap {
  map_ptr : Z;
  map_rows : Z;
  map_cols : Z
}.

Definition map_size (m : MapMatrixXf) : Z := map_rows m * map_cols m.

(** [Eigen::Ref<VectorXf>] obtained from [v.segment(start, n)]: a view of
    [n] consecutive coefficients of [v]. *)
Record RefVectorXf : Type := mkRef {
  ref_start : Z;
  ref_size : Z
}.

(** [&buffer(index)] followed by [Map<MatrixXf>(ptr, r, c)]: the
    coefficient access needs [0 <= index < buffer.size()] (the index is
    converted from [size_t] to [Index]) and the map non-negative
    dimensions.  The map itself does not know where the buffer ends. *)
Definition map_at (buffer_size : Z) (index : Z) (r c : Z) : option MapMatrixXf :=
  if decide (0 ≤ to_Index index < buffer_size ∧ 0 ≤ r ∧ 0 ≤ c)
  then Some (mkMap (to_Index index) r c)
  else None.

(** [buffer.segment(start, n)]: needs
    [0 <= start], [0 <= n] and [start <= buffer.size() - n]. *)
Definition segment (buffer_size : Z) (start : Z) (n : Z) : option RefVectorXf :=
  if decide (0 ≤ to_Index start ∧ 0 ≤ n ∧ to_Index start ≤ buffer_size - n)
  then Some (mkRef (to_Index start) n)
  else None.

(** The coefficients [start, start + n) of a buffer; reading outside the
    buffer is undefined. *)
Definition read_range (buffer : VectorXf) (start n : Z) : option (list float) :=
  if decide (0 ≤ start ∧ 0 ≤ n ∧ start + n ≤ Z.of_nat (length buffer))
  then Some (take (Z.to_nat n) (drop (Z.to_nat start) buffer))
  else None.

(** The matrix seen through a map. *)
Definition read_map (buffer : VectorXf) (m : MapMatrixXf) : option MatrixXf :=
  if decide (0 ≤ map_rows m ∧ 0 ≤ map_cols m)
  then mkMatrix (map_rows m) (map_cols m) <$> read_range buffer (map_ptr m) (map_size m)
  else None.

(** The vector seen through a reference. *)
Definition read_ref (buffer : VectorXf) (r : RefVectorXf) : option VectorXf :=
  read_range buffer (ref_start r) (ref_size r).

End Eigen.

(** ** [utils/operating_point.h] *)

(** Modelled from the spec: [OperatingPointRef], declared in
    [utils/operating_point.h], which is not among the sources.  Only the two
    members that [strategy.h] reads are kept, with the subscripting
    [strategy.h] uses: [xs[k]] is the nominal joint state at time step [k]
    and [us[k][i]] the nominal control of player [i] at time step [k].  The
    vectors are the values seen through the references. *)
Record OperatingPointRef : Type := mkOperatingPointRef {
  xs : list Eigen.VectorXf;
  us : list (list Eigen.VectorXf)
}.

(** ** [utils/strategy.h]: [struct StrategyRef] *)

Module StrategyRef.

(** The members: views into the primal buffer. *)
Record t : Type := mk {
  Ps : list Eigen.MapMatrixXf;
  alphas : list Eigen.RefVectorXf
}.

(** State of the constructor's loop: the running [primal_idx] and the
    object under construction. *)
Record build_state : Type := mkState {
  primal_idx : Z;
  built : t
}.

(** One iteration of the constructor's loop ([kk] itself is not used). *)
Definition build_step (xdim udim : Z) (primals_size : Z)
    (kk : nat) (st : build_state) : option build_state :=
  (* Ps.emplace_back(&primals(primal_idx), xdim, udim); *)
  P ← Eigen.map_at primals_size (primal_idx st) xdim udim;
  let Ps' := Ps (built st) ++ [P] in
  (* primal_idx += xdim * udim; *)
  n ← int_mul xdim udim;
  let idx1 := to_size_t (primal_idx st + n) in
  (* alphas.emplace_back(primals.segment(primal_idx, udim)); *)
  a ← Eigen.segment primals_size idx1 udim;
  let alphas' := alphas (built st) ++ [a] in
  (* primal_idx += udim; *)
  let idx2 := to_size_t (idx1 + udim) in
  Some (mkState idx2 (mk Ps' alphas')).

(** [StrategyRef(horizon, xdim, udim, primals, initial_idx)]. *)
Definition make (horizon : Z) (xdim udim : Z) (primals : Eigen.VectorXf)
    (initial_idx : Z) : option t :=
  built <$> for_loop 0 (Z.to_nat horizon)
              (build_step xdim udim (Z.of_nat (length primals)))
              (mkState initial_idx (mk [] [])).

(** [operator()(time_index, x)]: [-Ps[time_index] * x - alphas[time_index]],
    read through the views into [primals]. *)
Definition call (primals : Eigen.VectorXf) (s : t) (time_index : nat)
    (x : Eigen.VectorXf) : option Eigen.VectorXf :=
  mP ← Ps s !! time_index;
  P ← Eigen.read_map primals mP;
  Px ← Eigen.mat_vec (Eigen.mopp P) x;
  ra ← alphas s !! time_index;
  a ← Eigen.read_ref primals ra;
  Eigen.vsub Px a.

(** [NumVariables()]. *)
Definition NumVariables (s : t) : outcome Z :=
  let horizon := Z.of_nat (length (Ps s)) in
  (* CHECK_EQ(horizon, alphas.size()); *)
  if decide (horizon = Z.of_nat (length (alphas s))) then
    match Ps s, alphas s with
    | P :: _, a :: _ =>
        Returns (to_size_t (horizon * (Eigen.map_size P + Eigen.ref_size a)))
    | _, _ => UndefinedBehaviour
    end
  else CheckFailure.

End StrategyRef.

(** ** [utils/strategy.h]: [struct Strategy] *)

Module Strategy.

Record t : Type := mk {
  Ps : list Eigen.MatrixXf;
  alphas : list Eigen.VectorXf
}.

(** Body of the loop of [Strategy(horizon, xdim, udim)]. *)
Definition zero_step (xdim udim : Z) (ii : nat) (s : t) : option t :=
  (* Ps[ii] = MatrixXf::Zero(udim, xdim); *)
  P ← Eigen.Zero udim xdim;
  Ps' ← assign_at (Ps s) ii P;
  (* alphas[ii] = VectorXf::Zero(udim); *)
  a ← Eigen.ZeroVector udim;
  alphas' ← assign_at (alphas s) ii a;
  Some (mk Ps' alphas').

(** [Strategy(horizon, xdim, udim)]: [Ps(horizon), alphas(horizon)], then
    the loop. *)
Definition make (horizon : Z) (xdim udim : Z) : option t :=
  let n := Z.to_nat horizon in
  for_loop 0 n (zero_step xdim udim)
    (mk (replicate n Eigen.empty_matrix) (replicate n [])).

(** Body of the loop of [Strategy(other, op, player_idx)]; [primals] is the
    buffer that [other] views. *)
Definition from_ref_step (primals : Eigen.VectorXf) (other : StrategyRef.t)
    (op : OperatingPointRef) (player_idx : nat) (kk : nat) (s : t) : option t :=
  (* Ps[kk] = other.Ps[kk]; *)
  mP ← StrategyRef.Ps other !! kk;
  P ← Eigen.read_map primals mP;
  Ps' ← assign_at (Ps s) kk P;
  (* alphas[kk] =
       other.alphas[kk] + op.us[kk][player_idx] - Ps[kk] * op.xs[kk]; *)
  ra ← StrategyRef.alphas other !! kk;
  a ← Eigen.read_ref primals ra;
  us_kk ← us op !! kk;
  u ← us_kk !! player_idx;
  au ← Eigen.vadd a u;
  Pkk ← Ps' !! kk;
  x ← xs op !! kk;
  Px ← Eigen.mat_vec Pkk x;
  r ← Eigen.vsub au Px;
  alphas' ← assign_at (alphas s) kk r;
  Some (mk Ps' alphas').

(** [Strategy(other, op, player_idx)]:
    [Ps(other.Ps.size()), alphas(other.alphas.size())], then the loop over
    [kk < Ps.size()]. *)
Definition from_ref (primals : Eigen.VectorXf) (other : StrategyRef.t)
    (op : OperatingPointRef) (player_idx : nat) : option t :=
  let init := mk (replicate (length (StrategyRef.Ps other)) Eigen.empty_matrix)
                 (replicate (length (StrategyRef.alphas other)) []) in
  for_loop 0 (length (Ps init)) (from_ref_step primals other op player_idx) init.

(** [operator()(time_index, delta_x, u_ref)]:
    [u_ref - Ps[time_index] * delta_x - alphas[time_index]]. *)
Definition call (s : t) (time_index : nat) (delta_x u_ref : Eigen.VectorXf)
    : option Eigen.VectorXf :=
  P ← Ps s !! time_index;
  Pdx ← Eigen.mat_vec P delta_x;
  d ← Eigen.vsub u_ref Pdx;
  a ← alphas s !! time_index;
  Eigen.vsub d a.

(** [NumVariables()]. *)
Definition NumVariables (s : t) : outcome Z :=
  let horizon := Z.of_nat (length (Ps s)) in
  (* CHECK_EQ(horizon, alphas.size()); *)
  if decide (horizon = Z.of_nat (length (alphas s))) then
    match Ps s, alphas s with
    | P :: _, a :: _ =>
        Returns (to_size_t (horizon * (Eigen.size P + Z.of_nat (length a))))
    | _, _ => UndefinedBehaviour
    end
  else CheckFailure.

End Strategy.

(** ** [src/one_player_reachability_example.cpp] *)

(** [M_PI] of [<math.h>]: the [double] nearest to pi. *)
Definition M_PI : spec_float := double_literal 314159265358979323846 20.

Module OnePlayerReachabilityExample.

(** The constants of the anonymous namespace.  Each is a [float]
    initialised from a [double] expression. *)
Definition kTimeStep : float := float_of_double (double_literal 1 1).      (* 0.1 *)
Definition kTimeHorizon : float := float_of_double (double_literal 20 1).  (* 2.0 *)

(** [static_cast<size_t>(kTimeHorizon / kTimeStep)]: a [float] division. *)
Definition kNumTimeSteps : option Z :=
  size_t_of_float (fdiv kTimeHorizon kTimeStep).

Definition kTargetRadius : float := float_of_double (double_literal 5 1).  (* 0.5 *)

Definition kP1InitialX : float := float_of_double (double_literal 20 1).   (* 2.0 *)
Definition kP1InitialY : float := float_of_double (double_literal 20 1).   (* 2.0 *)
Definition kP1InitialTheta : float := float_of_double (SFopp M_PI).        (* -M_PI *)
Definition kP1InitialOmega : float := float_of_double double_zero.         (* 0.0 *)

Definition kP1GoalX : float := float_of_double double_zero.                (* 0.0 *)
Definition kP1GoalY : float := float_of_double double_zero.                (* 0.0 *)

(** [x(i) = v] on a [VectorXf]: the index must be in range. *)
Definition set_coeff (x : Eigen.VectorXf) (i : Z) (v : float) : option Eigen.VectorXf :=
  if decide (0 ≤ i < Z.of_nat (length x)) then Some (<[Z.to_nat i := v]> x) else None.

(** [x(i)]. *)
Definition get_coeff (x : Eigen.VectorXf) (i : Z) : option float :=
  if decide (0 ≤ i) then x !! Z.to_nat i else None.

Section Dynamics.
(** The state layout of [SinglePlayerDelayedDubinsCar] and the state
    dimension of the concatenated system; their header is not among the
    sources, so they are parameters here. *)
Variables (XDim kPxIdx kPyIdx kThetaIdx kOmegaIdx : Z).

Definition kP1XIdx : Z := kPxIdx.
Definition kP1YIdx : Z := kPyIdx.
Definition kP1ThetaIdx : Z := kThetaIdx.
Definition kP1OmegaIdx : Z := kOmegaIdx.

(** The constructor's "Set up initial state". *)
Definition x0_ : option Eigen.VectorXf :=
  x ← Eigen.ZeroVector XDim;
  x ← set_coeff x kP1XIdx kP1InitialX;
  x ← set_coeff x kP1YIdx kP1InitialY;
  x ← set_coeff x kP1ThetaIdx kP1InitialTheta;
  set_coeff x kP1OmegaIdx kP1InitialOmega.

(** The strategy that the constructor's "Set up initial strategies"
    places for a player of control dimension [udim]. *)
Definition initial_strategy (udim : Z) : option Strategy.t :=
  h ← kNumTimeSteps; Strategy.make h XDim udim.

(** The whole loop of "Set up initial strategies":
    [for (ii = 0; ii < NumPlayers(); ii++)
       strategies_->emplace_back(kNumTimeSteps, XDim(), UDim(ii));]
    for a system of [NumPlayers] players with control dimensions [UDim]. *)
Definition initial_strategies (NumPlayers : nat) (UDim : nat → Z)
    : option (list Strategy.t) :=
  for_loop 0 NumPlayers
    (λ ii strategies_, s ← initial_strategy (UDim ii); Some (strategies_ ++ [s])) [].



End Dynamics.

(** The arguments of the call [DrawCircle(Point2(kP1GoalX, kP1GoalY),
    kTargetRadius, 10)] that builds the goal: centre, radius and number
    of segments. *)
Definition goal_circle : (float * float) * float * Z :=
  ((kP1GoalX, kP1GoalY), kTargetRadius, 10).

End OnePlayerReachabilityExample.

(** ** [gui/top_down_renderer.h] *)

Module TopDownRenderer.

Section Collaborators.
(** [ControlSliders] and [SolverLog] are declared in headers that are not
    among the sources; the renderer only holds pointers to them.  A
    [std::shared_ptr] is an [option]: [None] is the null pointer. *)
Context {ControlSliders SolverLog : Type}.

(** [ImVec2]. *)
Definition ImVec2 : Type := float * float.

(** The private members. *)
Record t : Type := mk {
  sliders_ : option ControlSliders;
  logs_ : list (option SolverLog);
  x_idxs_ : list Z;
  y_idxs_ : list Z;
  heading_idxs_ : list Z;
  center_delta_ : ImVec2;
  last_mouse_position_ : ImVec2;
  pixel_to_meter_ratio_ : float
}.

(** [for (const auto& log : logs) CHECK_NOTNULL(log.get());] *)
Fixpoint check_logs (logs : list (option SolverLog)) : bool :=
  match logs with
  | [] => true
  | log :: logs' => if log is Some _ then check_logs logs' else false
  end.

(** The constructor: the member initialisers, then the checks. *)
Definition make (sliders : option ControlSliders) (logs : list (option SolverLog))
    (x_idxs y_idxs heading_idxs : list Z) : outcome t :=
  let zero := float_of_double double_zero in
  let r := mk sliders logs x_idxs y_idxs heading_idxs
              (zero, zero) (zero, zero) (float_of_double (double_literal 5 0)) in
  (* CHECK_NOTNULL(sliders_.get()); *)
  if sliders_ r is Some _ then
    (* CHECK_EQ(x_idxs_.size(), y_idxs_.size()); *)
    if decide (length (x_idxs_ r) = length (y_idxs_ r)) then
      (* CHECK_EQ(x_idxs_.size(), heading_idxs_.size()); *)
      if decide (length (x_idxs_ r) = length (heading_idxs_ r)) then
        if check_logs logs then Returns r else CheckFailure
      else CheckFailure
    else CheckFailure
  else CheckFailure.
End Collaborators.

(** [CurrentZoomLevel()] is declared here and defined in a file that is not
    among the sources; the three conversions take its value as an
    argument. *)

(** [LengthToPixels(l)]: [return l * CurrentZoomLevel();] *)
Definition LengthToPixels (CurrentZoomLevel : float) (l : float) : float :=
  fmul l CurrentZoomLevel.

(** [PixelsToLength(p)]: [return p / CurrentZoomLevel();] *)
Definition PixelsToLength (CurrentZoomLevel : float) (p : float) : float :=
  fdiv p CurrentZoomLevel.

(** [HeadingToWindowCoordinates(heading)]: [return -heading;] *)
Definition HeadingToWindowCoordinates (heading : float) : float := fopp heading.

End TopDownRenderer.

(** ** [utils/types.h]: [sgn] *)

(** What [sgn] needs of its arithmetic type [T]: the trait
    [std::is_signed<T>], the conversion [T(n)] of an [int] (a [bool] converts
    as [0] or [1]) and the comparison [<]. *)
Class Arithmetic (T : Type) : Type := {
  is_signed : bool;
  of_int : Z → T;
  less : T → T → bool
}.

Section Sgn.
Context {T : Type} `{Arithmetic T}.

(** [sgn(T x, std::false_type)]: [return T(0) < x;] *)
Definition sgn_unsigned (x : T) : T :=
  of_int (Z.b2z (less (of_int 0) x)).

(** [sgn(T x, std::true_type)]: [return (T(0) < x) - (x < T(0));] *)
Definition sgn_signed (x : T) : T :=
  of_int (Z.b2z (less (of_int 0) x) - Z.b2z (less x (of_int 0))).

(** [sgn(T x)]: [return sgn(x, std::is_signed<T>());] *)
Definition sgn (x : T) : T :=
  if is_signed then sgn_signed x else sgn_unsigned x.
End Sgn.

(** A signed integer type of [w] bits; a value is a [Z] in
    [-2^(w-1), 2^(w-1)). *)
Definition wrap_signed (w : Z) (z : Z) : Z :=
  (z + 2 ^ (w - 1)) mod 2 ^ w - 2 ^ (w - 1).

Definition signed_int (w : Z) : Arithmetic Z :=
  {| is_signed := true; of_int := wrap_signed w; less := Z.ltb |}.

(** An unsigned integer type of [w] bits; a value is a [Z] in [0, 2^w). *)
Definition unsigned_int (w : Z) : Arithmetic Z :=
  {| is_signed := false; of_int := λ z, z mod 2 ^ w; less := Z.ltb |}.

(** [float] and [double]. *)
Definition float_arith : Arithmetic float :=
  {| is_signed := true; of_int := float_of_Z; less := flt |}.

Definition double_arith : Arithmetic spec_float :=
  {| is_signed := true;
     of_int := λ z, binary_normalize 53 1024 z 0 false;
     less := SFltb |}.

(** * Vocabulary of the properties *)

(** ** Ranges of the integer types *)

Definition is_size_t (z : Z) : Prop := 0 ≤ z ≤ SIZE_MAX.
Definition is_int (z : Z) : Prop := INT_MIN ≤ z ≤ INT_MAX.

(** A list of ranges [(start, length)] that follow one another without gap
    or overlap, from position [a] to position [b]. *)
Fixpoint chained (a : Z) (l : list (Z * Z)) (b : Z) : Prop :=
  match l with
  | [] => a = b
  | (s, n) :: l' => s = a ∧ 0 ≤ n ∧ chained (a + n) l' b
  end.

(** The ranges [(start, length)] of the primal buffer that a [StrategyRef]
    views, in the order [P_0, alpha_0, P_1, alpha_1, ...]. *)
Fixpoint interleave (Ps : list Eigen.MapMatrixXf) (alphas : list Eigen.RefVectorXf)
    : list (Z * Z) :=
  match Ps, alphas with
  | P :: Ps', a :: alphas' =>
      (Eigen.map_ptr P, Eigen.map_size P)
        :: (Eigen.ref_start a, Eigen.ref_size a) :: interleave Ps' alphas'
  | _, _ => []
  end.

Definition ranges (s : StrategyRef.t) : list (Z * Z) :=
  interleave (StrategyRef.Ps s) (StrategyRef.alphas s).

(** Position [p] lies in the range [(start, length)]. *)
Definition in_range (p : Z) (ρ : Z * Z) : Prop := ρ.1 ≤ p < ρ.1 + ρ.2.

(** Total length of a list of ranges. *)
Definition total_length (l : list (Z * Z)) : Z := foldr (λ ρ acc, ρ.2 + acc) 0 l.

(** Coefficients taken from the primal buffer per time step. *)
Definition stride (xdim udim : Z) : Z := xdim * udim + udim.

(** The views of time step [k]. *)
Definition P_view (initial_idx xdim udim : Z) (k : nat) : Eigen.MapMatrixXf :=
  Eigen.mkMap (initial_idx + Z.of_nat k * stride xdim udim) xdim udim.

Definition alpha_view (initial_idx xdim udim : Z) (k : nat) : Eigen.RefVectorXf :=
  Eigen.mkRef (initial_idx + Z.of_nat k * stride xdim udim + xdim * udim) udim.

(** The views of [n] time steps, laid out from [initial_idx] on. *)
Definition layout (initial_idx xdim udim : Z) (n : nat) : StrategyRef.t :=
  StrategyRef.mk (P_view initial_idx xdim udim <$> seq 0 n)
                 (alpha_view initial_idx xdim udim <$> seq 0 n).

(** The [udim x xdim] matrix of zeros, the vector of [udim] zeros and the
    strategy that holds them at each of [n] time steps. *)
Definition zero_gain (xdim udim : Z) : Eigen.MatrixXf :=
  Eigen.mkMatrix udim xdim (replicate (Z.to_nat (udim * xdim)) fzero).

Definition zero_feedforward (udim : Z) : Eigen.VectorXf :=
  replicate (Z.to_nat udim) fzero.

Definition zero_strategy (n : nat) (xdim udim : Z) : Strategy.t :=
  Strategy.mk (replicate n (zero_gain xdim udim)) (replicate n (zero_feedforward udim)).

(** The loop of [Strategy(horizon, xdim, udim)] after [ii] of its [n]
    iterations. *)
Definition zero_partial (xdim udim : Z) (n : nat) (ii : nat) (s : Strategy.t) : Prop :=
  Strategy.Ps s = replicate ii (zero_gain xdim udim)
                    ++ replicate (n - ii) Eigen.empty_matrix ∧
  Strategy.alphas s = replicate ii (zero_feedforward udim)
                        ++ replicate (n - ii) [] ∧
  ((0 < ii)%nat → 0 ≤ xdim ∧ 0 ≤ udim).

(** What [Strategy(other, op, player_idx)] reads at time step [t]: the
    gain [P] and the feedforward term [a] seen through [other], the nominal
    control [u] of the player and the nominal state [x]. *)
Definition reads (primals : Eigen.VectorXf) (other : StrategyRef.t)
    (op : OperatingPointRef) (player_idx t : nat)
    (P : Eigen.MatrixXf) (a u x : Eigen.VectorXf) : Prop :=
  (∃ mP, StrategyRef.Ps other !! t = Some mP ∧ Eigen.read_map primals mP = Some P) ∧
  (∃ ra, StrategyRef.alphas other !! t = Some ra ∧ Eigen.read_ref primals ra = Some a) ∧
  (∃ us_t, us op !! t = Some us_t ∧ us_t !! player_idx = Some u) ∧
  xs op !! t = Some x.

(** The feedforward term [a + u - P * x] that it stores. *)
Definition shifted_alpha (P : Eigen.MatrixXf) (a u x : Eigen.VectorXf)
    : option Eigen.VectorXf :=
  au ← Eigen.vadd a u; Px ← Eigen.mat_vec P x; Eigen.vsub au Px.

(** The loop of [Strategy(other, op, i)] after [kk] iterations. *)
Definition from_ref_partial (primals : Eigen.VectorXf) (other : StrategyRef.t)
    (op : OperatingPointRef) (i : nat) (kk : nat) (s : Strategy.t) : Prop :=
  length (Strategy.Ps s) = length (StrategyRef.Ps other) ∧
  length (Strategy.alphas s) = length (StrategyRef.alphas other) ∧
  (∀ t, (t < kk)%nat → ∃ P a u x r,
     reads primals other op i t P a u x ∧ shifted_alpha P a u x = Some r ∧
     Strategy.Ps s !! t = Some P ∧ Strategy.alphas s !! t = Some r) ∧
  (∀ t, (kk ≤ t)%nat → (t < length (Strategy.alphas s))%nat →
     Strategy.alphas s !! t = Some []).

(** Closed comparisons of integers, by evaluation. *)
Ltac by_evaluation :=
  vm_compute;
  repeat match goal with |- _ ∧ _ => split end;
  first [reflexivity | discriminate | intros _; reflexivity | intros _; discriminate].

(** A primal buffer and an operating point to instantiate the properties
    with. *)
Definition witness_buffer : Eigen.VectorXf := float_of_Z <$> [1; 2; 3; 4; 5; 6; 7].

Definition witness_op : OperatingPointRef :=
  mkOperatingPointRef [[float_of_Z 1]; [float_of_Z 1]]
                      [[[float_of_Z 0]]; [[float_of_Z 0]]].

(** * Properties *)

(** ** Loops *)

Section ForLoop.
Context {S : Type} (body : nat → S → option S).

(** A loop that ran to its end maintains every invariant of its body. *)
Lemma for_loop_invariant (I : nat → S → Prop) count : ∀ start s s',
  I start s →
  (∀ i t t', (start ≤ i < start + count)%nat → I i t → body i t = Some t' → I (Datatypes.S i) t') →
  for_loop start count body s = Some s' →
  I (start + count)%nat s'.
Proof.
  induction count as [|count IH]; intros start s s' HI Hstep Hrun; simpl in Hrun.
  - injection Hrun as <-. by rewrite Nat.add_0_r.
  - destruct (body start s) as [t|] eqn:Hb; simpl in Hrun; [|done].
    replace (start + Datatypes.S count)%nat with (Datatypes.S start + count)%nat by lia.
    apply (IH (Datatypes.S start) t s'); [|intros i u u' Hi; apply Hstep; lia|done].
    apply (Hstep start s t); [lia|done|done].
Qed.

(** A loop whose body cannot fail under an invariant runs to its end. *)
Lemma for_loop_total (I : nat → S → Prop) count : ∀ start s,
  I start s →
  (∀ i t, (start ≤ i < start + count)%nat → I i t →
     ∃ t', body i t = Some t' ∧ I (Datatypes.S i) t') →
  ∃ s', for_loop start count body s = Some s' ∧ I (start + count)%nat s'.
Proof.
  induction count as [|count IH]; intros start s HI Hstep; simpl.
  - exists s. by rewrite Nat.add_0_r.
  - destruct (Hstep start s) as (t & Hb & Ht); [lia|done|].
    rewrite Hb; simpl.
    replace (start + Datatypes.S count)%nat with (Datatypes.S start + count)%nat by lia.
    apply IH; [done|]. intros i u Hi; apply Hstep; lia.
Qed.
End ForLoop.

Lemma assign_at_Some {A} (v v' : list A) i x :
  assign_at v i x = Some v' → (i < length v)%nat ∧ v' = <[i := x]> v.
Proof. unfold assign_at. case_decide; naive_solver. Qed.

Lemma assign_at_lt {A} (v : list A) i x :
  (i < length v)%nat → assign_at v i x = Some (<[i := x]> v).
Proof. unfold assign_at. intros. by rewrite decide_True. Qed.

(** ** Chained ranges *)

Lemma chained_le a l b : chained a l b → a ≤ b.
Proof.
  revert a. induction l as [|[s n] l IH]; simpl; intros a H; [lia|].
  destruct H as (_ & Hn & H). apply IH in H. lia.
Qed.

Lemma chained_app a l1 m l2 b :
  chained a l1 m → chained m l2 b → chained a (l1 ++ l2) b.
Proof.
  revert a. induction l1 as [|[s n] l1 IH]; simpl; intros a H1 H2.
  - by subst.
  - destruct H1 as (-> & Hn & H1). eauto.
Qed.

(** Chained ranges cover exactly the positions between their ends. *)
Lemma chained_cover a l b p :
  chained a l b → (Exists (in_range p) l ↔ a ≤ p < b).
Proof.
  revert a. induction l as [|[s n] l IH]; simpl; intros a H.
  - rewrite Exists_nil. lia.
  - destruct H as (-> & Hn & H). rewrite Exists_cons, (IH _ H).
    apply chained_le in H. unfold in_range; simpl. lia.
Qed.

(** Every range of a chain lies between the ends of the chain. *)
Lemma chained_lookup a l b j ρ :
  chained a l b → l !! j = Some ρ → a ≤ ρ.1 ∧ 0 ≤ ρ.2 ∧ ρ.1 + ρ.2 ≤ b.
Proof.
  revert a j. induction l as [|[s n] l IH]; intros a j H Hj; [done|].
  destruct H as (-> & Hn & H). destruct j as [|j]; simpl in *.
  - injection Hj as <-; simpl. apply chained_le in H. lia.
  - specialize (IH _ _ H Hj). lia.
Qed.

Lemma chained_ordered a l b i j ρi ρj :
  chained a l b → l !! i = Some ρi → l !! j = Some ρj → (i < j)%nat →
  ρi.1 + ρi.2 ≤ ρj.1.
Proof.
  revert a i j. induction l as [|[s n] l IH]; intros a i j H Hi Hj Hij; [done|].
  destruct H as (-> & Hn & H). destruct j as [|j]; [lia|].
  destruct i as [|i]; simpl in *.
  - injection Hi as <-; simpl. pose proof (chained_lookup _ _ _ _ _ H Hj). lia.
  - eapply (IH _ i j); eauto. lia.
Qed.

(** Chained ranges are pairwise disjoint. *)
Lemma chained_disjoint a l b i j ρi ρj p :
  chained a l b → l !! i = Some ρi → l !! j = Some ρj → i ≠ j →
  in_range p ρi → in_range p ρj → False.
Proof.
  intros H Hi Hj Hij Hpi Hpj. unfold in_range in *.
  destruct (decide (i < j)%nat).
  - pose proof (chained_ordered _ _ _ _ _ _ _ H Hi Hj ltac:(done)). lia.
  - pose proof (chained_ordered _ _ _ _ _ _ _ H Hj Hi ltac:(lia)). lia.
Qed.

Lemma chained_total_length a l b : chained a l b → total_length l = b - a.
Proof.
  revert a. induction l as [|[s n] l IH]; simpl; intros a H; [lia|].
  destruct H as (_ & _ & H). apply IH in H. unfold total_length in *. simpl. lia.
Qed.

(** ** Integer conversions *)

Lemma to_size_t_id z : 0 ≤ z < 2 ^ 64 → to_size_t z = z.
Proof. intros. unfold to_size_t. by rewrite Z.mod_small. Qed.

Lemma to_Index_nonneg z :
  0 ≤ z < 2 ^ 64 → 0 ≤ to_Index z → to_Index z = z ∧ z < 2 ^ 63.
Proof.
  intros Hz. unfold to_Index. rewrite Z.mod_small by done.
  case_decide; lia.
Qed.

Lemma to_Index_id z : 0 ≤ z < 2 ^ 63 → to_Index z = z.
Proof.
  intros Hz. unfold to_Index. rewrite Z.mod_small by lia.
  by rewrite decide_True by lia.
Qed.

Lemma int_mul_Some a b n : int_mul a b = Some n → n = a * b ∧ is_int (a * b).
Proof. unfold int_mul, is_int. case_decide; [intros [= <-]; done|done]. Qed.

Lemma int_mul_fits a b : is_int (a * b) → int_mul a b = Some (a * b).
Proof. intros. unfold int_mul. by rewrite decide_True. Qed.

Lemma map_at_in_range size i r c :
  0 ≤ i < size → i < 2 ^ 63 → 0 ≤ r → 0 ≤ c →
  Eigen.map_at size i r c = Some (Eigen.mkMap i r c).
Proof.
  intros. unfold Eigen.map_at. rewrite to_Index_id by lia. by rewrite decide_True.
Qed.

Lemma segment_in_range size i n :
  0 ≤ i → i < 2 ^ 63 → 0 ≤ n → i + n ≤ size →
  Eigen.segment size i n = Some (Eigen.mkRef i n).
Proof.
  intros. unfold Eigen.segment. rewrite to_Index_id by lia.
  by rewrite decide_True by lia.
Qed.

(** ** The layout built by the constructor of [StrategyRef] *)

(** What a successful construction of a [StrategyRef] has established. *)
Lemma StrategyRef_make_Some horizon xdim udim primals initial_idx r :
  is_size_t initial_idx → is_int xdim → is_int udim →
  StrategyRef.make horizon xdim udim primals initial_idx = Some r →
  let n := Z.to_nat horizon in
  let size := Z.of_nat (length primals) in
  r = layout initial_idx xdim udim n ∧
  ((0 < n)%nat →
     0 ≤ xdim ∧ 0 ≤ udim ∧ xdim * udim ≤ INT_MAX ∧ initial_idx < size ∧
     initial_idx + Z.of_nat n * stride xdim udim ≤ size ∧
     initial_idx + Z.of_nat n * stride xdim udim < 2 ^ 63 + 2 ^ 31).
Proof.
  intros Hi Hx Hu Hmake n size. unfold StrategyRef.make in Hmake.
  fold n size in Hmake.
  destruct (for_loop _ _ _ _) as [st|] eqn:Hloop; [|done].
  injection Hmake as <-.
  set (I := λ (kk : nat) (st : StrategyRef.build_state),
    StrategyRef.primal_idx st = initial_idx + Z.of_nat kk * stride xdim udim ∧
    0 ≤ StrategyRef.primal_idx st < 2 ^ 64 ∧
    StrategyRef.built st = layout initial_idx xdim udim kk ∧
    ((0 < kk)%nat →
       0 ≤ xdim ∧ 0 ≤ udim ∧ xdim * udim ≤ INT_MAX ∧ initial_idx < size ∧
       StrategyRef.primal_idx st ≤ size ∧
       StrategyRef.primal_idx st < 2 ^ 63 + 2 ^ 31)).
  assert (HI : I (0 + n)%nat st).
  { apply (for_loop_invariant _ I n 0 _ st) in Hloop; [done| |].
    - unfold I, is_size_t, SIZE_MAX in *; simpl. repeat split; try lia. 
    - clear Hloop st. intros kk st st' Hkk (Hidx & Hrange & Hbuilt & Hpos) Hstep.
      unfold StrategyRef.build_step in Hstep.
      unfold Eigen.map_at in Hstep. case_decide as Hmap; [|done]. simpl in Hstep.
      destruct (int_mul xdim udim) as [p|] eqn:Hmul; [|done]. simpl in Hstep.
      apply int_mul_Some in Hmul as [-> Hprod].
      unfold Eigen.segment in Hstep. case_decide as Hseg; [|done]. simpl in Hstep.
      injection Hstep as <-.
      destruct Hmap as ((Hp0 & Hplt) & Hx0 & Hu0).
      destruct (to_Index_nonneg _ Hrange Hp0) as [Hpid Hp63].
      rewrite Hpid in *.
      assert (Hidx1 : to_size_t (StrategyRef.primal_idx st + xdim * udim)
                      = StrategyRef.primal_idx st + xdim * udim).
      { apply to_size_t_id. unfold is_int, INT_MAX, INT_MIN in *. nia. }
      rewrite Hidx1 in *.
      destruct Hseg as (Hs0 & _ & Hsle).
      destruct (to_Index_nonneg (StrategyRef.primal_idx st + xdim * udim)) as [Hsid Hs63];
        [unfold is_int, INT_MAX, INT_MIN in *; nia|done|].
      rewrite Hsid in *.
      assert (Hidx2 : to_size_t (StrategyRef.primal_idx st + xdim * udim + udim)
                      = StrategyRef.primal_idx st + xdim * udim + udim).
      { apply to_size_t_id. unfold is_int, INT_MAX, INT_MIN in *. lia. }
      rewrite Hidx2.
      unfold I, layout.
      cbn [StrategyRef.primal_idx StrategyRef.built StrategyRef.Ps StrategyRef.alphas].
      rewrite Hbuilt. unfold layout.
      cbn [StrategyRef.Ps StrategyRef.alphas].
      rewrite !seq_S, !fmap_app; simpl.
      assert (Hinit : initial_idx < size).
      { destruct (decide (kk = 0)%nat) as [->|]; [lia|].
        destruct Hpos as (_ & _ & _ & ? & _); [lia|done]. }
      unfold stride, is_int, INT_MAX, INT_MIN in *.
      repeat split; try lia.
      unfold P_view, alpha_view, stride. do 4 f_equal; lia. }
  destruct HI as (Hidx & Hrange & Hbuilt & Hpos). simpl in *.
  split; [done|]. intros Hn. specialize (Hpos Hn). rewrite <- Hidx. lia.
Qed.

(** When the constructor of [StrategyRef] succeeds. *)
Lemma StrategyRef_make_total horizon xdim udim primals initial_idx :
  let size := Z.of_nat (length primals) in
  0 ≤ horizon → 0 ≤ initial_idx → 0 ≤ xdim → 0 ≤ udim →
  xdim * udim ≤ INT_MAX → size < 2 ^ 63 →
  initial_idx + horizon * stride xdim udim ≤ size →
  (0 < horizon → initial_idx < size) →
  StrategyRef.make horizon xdim udim primals initial_idx
  = Some (layout initial_idx xdim udim (Z.to_nat horizon)).
Proof.
  intros size Hh Hi Hx Hu Hprod Hsize Hfit Hinit. unfold StrategyRef.make. fold size.
  set (I := λ (kk : nat) (st : StrategyRef.build_state),
    StrategyRef.primal_idx st = initial_idx + Z.of_nat kk * stride xdim udim ∧
    StrategyRef.built st = layout initial_idx xdim udim kk).
  destruct (for_loop_total (StrategyRef.build_step xdim udim size) I (Z.to_nat horizon) 0
              (StrategyRef.mkState initial_idx (StrategyRef.mk [] [])))
    as (st & -> & _ & Hbuilt); [by split; simpl; [lia|]| |by simpl; rewrite Hbuilt].
  intros kk st Hkk (Hidx & Hbuilt).
  assert (Hstride : 0 ≤ stride xdim udim) by (unfold stride; nia).
  assert (Hnext : initial_idx + (Z.of_nat kk + 1) * stride xdim udim ≤ size) by nia.
  assert (Hcur : StrategyRef.primal_idx st < size).
  { rewrite Hidx. destruct (decide (stride xdim udim = 0)) as [->|]; [lia|nia]. }
  assert (H0 : 0 ≤ StrategyRef.primal_idx st) by nia.
  assert (Hidx1 : 0 ≤ StrategyRef.primal_idx st + xdim * udim
                  ∧ StrategyRef.primal_idx st + xdim * udim + udim ≤ size).
  { unfold stride in *. nia. }
  unfold StrategyRef.build_step.
  rewrite map_at_in_range by lia. simpl.
  rewrite int_mul_fits by (unfold is_int, INT_MIN; nia). simpl.
  rewrite (to_size_t_id (StrategyRef.primal_idx st + xdim * udim)) by lia.
  rewrite segment_in_range by lia. simpl.
  rewrite to_size_t_id by lia.
  eexists; split; [done|]. unfold I, layout.
  cbn [StrategyRef.primal_idx StrategyRef.built StrategyRef.Ps StrategyRef.alphas].
  rewrite Hbuilt. unfold layout.
  cbn [StrategyRef.Ps StrategyRef.alphas].
  rewrite !seq_S, !fmap_app; simpl.
  assert (Hdef : stride xdim udim = xdim * udim + udim) by done.
  split; [lia|].
  unfold P_view, alpha_view. do 4 f_equal; lia.
Qed.

(** The ranges viewed by a layout follow one another. *)
Lemma layout_chained initial_idx xdim udim n :
  0 ≤ xdim → 0 ≤ udim →
  chained initial_idx (ranges (layout initial_idx xdim udim n))
          (initial_idx + Z.of_nat n * stride xdim udim).
Proof.
  intros Hx Hu. unfold ranges, layout; simpl.
  induction n as [|n IH]; [simpl; lia|].
  rewrite !seq_S, !fmap_app; simpl.
  assert (Happ : ∀ (l1 : list Eigen.MapMatrixXf) (l2 : list Eigen.RefVectorXf) P a,
            length l1 = length l2 →
            interleave (l1 ++ [P]) (l2 ++ [a])
            = interleave l1 l2
                ++ [(Eigen.map_ptr P, Eigen.map_size P); (Eigen.ref_start a, Eigen.ref_size a)]).
  { clear. induction l1 as [|P1 l1 IH]; intros [|a2 l2] P a Hlen; simpl in *; try done.
    rewrite IH by lia. done. }
  rewrite Happ by (by rewrite !length_fmap).
  eapply chained_app; [exact IH|].
  unfold P_view, alpha_view, Eigen.map_size, stride; simpl.
  repeat split; try lia; nia.
Qed.

(** ** The zero strategy built by [Strategy(horizon, xdim, udim)] *)

(** Overwriting, from the left, a vector that was filled with [y]. *)
Lemma insert_replicate_boundary {A} (x y : A) ii n :
  (ii < n)%nat →
  <[ii := x]> (replicate ii x ++ replicate (n - ii) y)
  = replicate (S ii) x ++ replicate (n - S ii) y.
Proof.
  revert n. induction ii as [|ii IH]; intros n Hlt.
  - destruct n as [|n]; [lia|]. simpl. by rewrite Nat.sub_0_r.
  - destruct n as [|n]; [lia|]. simpl. f_equal.
    replace (n - ii)%nat with (n - ii)%nat by done.
    specialize (IH n ltac:(lia)). simpl in IH. exact IH.
Qed.

Lemma length_replicate_boundary {A} (x y : A) ii n :
  (ii ≤ n)%nat → length (replicate ii x ++ replicate (n - ii) y) = n.
Proof. intros. rewrite length_app, !length_replicate. lia. Qed.

Lemma Zero_Some r c M :
  Eigen.Zero r c = Some M →
  0 ≤ r ∧ 0 ≤ c ∧ M = Eigen.mkMatrix r c (replicate (Z.to_nat (r * c)) fzero).
Proof. unfold Eigen.Zero. case_decide; [intros [= <-]; repeat split; lia|done]. Qed.

Lemma ZeroVector_Some n v :
  Eigen.ZeroVector n = Some v → 0 ≤ n ∧ v = replicate (Z.to_nat n) fzero.
Proof. unfold Eigen.ZeroVector. case_decide; [intros [= <-]; by split|done]. Qed.

Lemma Zero_total r c :
  0 ≤ r → 0 ≤ c →
  Eigen.Zero r c = Some (Eigen.mkMatrix r c (replicate (Z.to_nat (r * c)) fzero)).
Proof. intros. unfold Eigen.Zero. by rewrite decide_True. Qed.

Lemma ZeroVector_total n :
  0 ≤ n → Eigen.ZeroVector n = Some (replicate (Z.to_nat n) fzero).
Proof. intros. unfold Eigen.ZeroVector. by rewrite decide_True. Qed.

Section ZeroStrategy.
Variables (xdim udim : Z) (n : nat).

Lemma zero_step_partial ii s s' :
  (ii < n)%nat → zero_partial xdim udim n ii s →
  Strategy.zero_step xdim udim ii s = Some s' → zero_partial xdim udim n (S ii) s'.
Proof.
  intros Hlt (HPs & Hal & _) Hstep. unfold Strategy.zero_step in Hstep.
  destruct (Eigen.Zero udim xdim) as [P|] eqn:HP; simpl in Hstep; [|done].
  apply Zero_Some in HP as (Hu & Hx & ->).
  rewrite HPs, assign_at_lt in Hstep
    by (rewrite length_replicate_boundary; lia). simpl in Hstep.
  destruct (Eigen.ZeroVector udim) as [a|] eqn:Ha; simpl in Hstep; [|done].
  apply ZeroVector_Some in Ha as (_ & ->).
  rewrite Hal, assign_at_lt in Hstep
    by (rewrite length_replicate_boundary; lia). simpl in Hstep.
  injection Hstep as <-. unfold zero_partial.
  cbn [Strategy.Ps Strategy.alphas].
  rewrite <- !insert_replicate_boundary by done.
  repeat split; try done; lia.
Qed.

Lemma zero_step_defined ii s :
  0 ≤ xdim → 0 ≤ udim → (ii < n)%nat → zero_partial xdim udim n ii s →
  ∃ s', Strategy.zero_step xdim udim ii s = Some s' ∧ zero_partial xdim udim n (S ii) s'.
Proof.
  intros Hx Hu Hlt Hpart.
  assert (is_Some (Strategy.zero_step xdim udim ii s)) as [s' Hs'].
  { destruct Hpart as (HPs & Hal & _).
    unfold Strategy.zero_step.
    rewrite Zero_total, ZeroVector_total by lia. simpl.
    rewrite HPs, Hal, !assign_at_lt by (rewrite length_replicate_boundary; lia).
    simpl. done. }
  exists s'. split; [done|]. by eapply zero_step_partial.
Qed.
End ZeroStrategy.

(** What a successful [Strategy(horizon, xdim, udim)] has built. *)
Lemma Strategy_make_Some horizon xdim udim s :
  Strategy.make horizon xdim udim = Some s →
  let n := Z.to_nat horizon in
  s = zero_strategy n xdim udim ∧ ((0 < n)%nat → 0 ≤ xdim ∧ 0 ≤ udim).
Proof.
  intros Hmake n. unfold Strategy.make in Hmake. fold n in Hmake.
  apply (for_loop_invariant _ (zero_partial xdim udim n)) in Hmake.
  - destruct Hmake as (HPs & Hal & Hdims). simpl in *.
    rewrite Nat.sub_diag in *. simpl in *. rewrite app_nil_r in *.
    split; [|done]. destruct s; simpl in *; by subst.
  - unfold zero_partial; simpl. rewrite Nat.sub_0_r. repeat split; lia.
  - intros ii t t' Hii. apply zero_step_partial. lia.
Qed.

(** [Strategy(horizon, xdim, udim)] succeeds for dimensions that are not
    negative. *)
Lemma Strategy_make_total horizon xdim udim :
  0 ≤ xdim → 0 ≤ udim →
  Strategy.make horizon xdim udim = Some (zero_strategy (Z.to_nat horizon) xdim udim).
Proof.
  intros Hx Hu.
  destruct (for_loop_total (Strategy.zero_step xdim udim)
              (zero_partial xdim udim (Z.to_nat horizon)) (Z.to_nat horizon) 0
              (Strategy.mk (replicate (Z.to_nat horizon) Eigen.empty_matrix)
                           (replicate (Z.to_nat horizon) [])))
    as (s & Hs & _).
  - unfold zero_partial; simpl. rewrite Nat.sub_0_r. repeat split; lia.
  - intros ii t Hii. apply zero_step_defined; lia.
  - unfold Strategy.make. rewrite Hs. f_equal.
    by apply Strategy_make_Some in Hs as [-> _].
Qed.

(** ** Eigen's operations, coefficient by coefficient *)

Lemma cwise_Some f a b r :
  Eigen.cwise f a b = Some r → length a = length b ∧ r = zip_with f a b.
Proof. unfold Eigen.cwise. case_decide; [intros [= <-]; by split|done]. Qed.

Lemma cwise_total f a b :
  length a = length b → Eigen.cwise f a b = Some (zip_with f a b).
Proof. intros. unfold Eigen.cwise. by rewrite decide_True. Qed.

Lemma length_cwise f a b r :
  Eigen.cwise f a b = Some r → length r = length a.
Proof.
  intros [Hlen ->]%cwise_Some. rewrite length_zip_with. lia.
Qed.

Lemma lookup_cwise f a b r j aj bj :
  Eigen.cwise f a b = Some r → a !! j = Some aj → b !! j = Some bj →
  r !! j = Some (f aj bj).
Proof.
  intros [_ ->]%cwise_Some Ha Hb. rewrite lookup_zip_with, Ha, Hb. done.
Qed.

Lemma mat_vec_Some M x r :
  Eigen.mat_vec M x = Some r →
  Eigen.cols M = Z.of_nat (length x) ∧
  r = (λ i, Eigen.row_dot M i x) <$> seq 0 (Z.to_nat (Eigen.rows M)).
Proof. unfold Eigen.mat_vec. case_decide; [intros [= <-]; by split|done]. Qed.

Lemma mat_vec_total M x :
  Eigen.cols M = Z.of_nat (length x) →
  Eigen.mat_vec M x = Some ((λ i, Eigen.row_dot M i x) <$> seq 0 (Z.to_nat (Eigen.rows M))).
Proof. intros. unfold Eigen.mat_vec. by rewrite decide_True. Qed.

Lemma length_mat_vec M x r :
  Eigen.mat_vec M x = Some r → length r = Z.to_nat (Eigen.rows M).
Proof. intros [_ ->]%mat_vec_Some. by rewrite length_fmap, length_seq. Qed.

Lemma lookup_mat_vec M x r j :
  Eigen.mat_vec M x = Some r → (j < Z.to_nat (Eigen.rows M))%nat →
  r !! j = Some (Eigen.row_dot M j x).
Proof.
  intros [_ ->]%mat_vec_Some Hj. rewrite list_lookup_fmap, lookup_seq_lt by done. done.
Qed.

Lemma read_range_Some buffer start n l :
  Eigen.read_range buffer start n = Some l →
  0 ≤ start ∧ 0 ≤ n ∧ start + n ≤ Z.of_nat (length buffer) ∧
  l = take (Z.to_nat n) (drop (Z.to_nat start) buffer) ∧ Z.of_nat (length l) = n.
Proof.
  unfold Eigen.read_range. case_decide as Hin; [|done]. intros [= <-].
  rewrite length_take, length_drop. repeat split; lia.
Qed.

Lemma read_map_Some buffer m M :
  Eigen.read_map buffer m = Some M →
  Eigen.rows M = Eigen.map_rows m ∧ Eigen.cols M = Eigen.map_cols m ∧
  0 ≤ Eigen.map_rows m ∧ 0 ≤ Eigen.map_cols m ∧
  Eigen.read_range buffer (Eigen.map_ptr m) (Eigen.map_size m) = Some (Eigen.coeffs M).
Proof.
  unfold Eigen.read_map. case_decide as Hdims; [|done].
  destruct (Eigen.read_range _ _ _) as [l|]; simpl; [|done].
  intros [= <-]. simpl. repeat split; lia.
Qed.

(** ** [Strategy(other, op, player_idx)] *)

Lemma reads_functional primals other op i t P a u x P' a' u' x' :
  reads primals other op i t P a u x → reads primals other op i t P' a' u' x' →
  P = P' ∧ a = a' ∧ u = u' ∧ x = x'.
Proof.
  intros ((mP & HmP & HP) & (ra & Hra & Ha) & (ut & Hut & Hu) & Hx)
         ((mP' & HmP' & HP') & (ra' & Hra' & Ha') & (ut' & Hut' & Hu') & Hx').
  simplify_eq. done.
Qed.

Lemma from_ref_step_Some primals other op i kk s s' :
  Strategy.from_ref_step primals other op i kk s = Some s' →
  ∃ P a u x r,
    reads primals other op i kk P a u x ∧ shifted_alpha P a u x = Some r ∧
    (kk < length (Strategy.Ps s))%nat ∧ (kk < length (Strategy.alphas s))%nat ∧
    s' = Strategy.mk (<[kk := P]> (Strategy.Ps s)) (<[kk := r]> (Strategy.alphas s)).
Proof.
  unfold Strategy.from_ref_step. intros Hstep.
  destruct (StrategyRef.Ps other !! kk) as [mP|] eqn:HmP; simpl in Hstep; [|done].
  destruct (Eigen.read_map primals mP) as [P|] eqn:HP; simpl in Hstep; [|done].
  destruct (assign_at (Strategy.Ps s) kk P) as [Ps'|] eqn:HPs; simpl in Hstep; [|done].
  apply assign_at_Some in HPs as [HltP ->].
  destruct (StrategyRef.alphas other !! kk) as [ra|] eqn:Hra; simpl in Hstep; [|done].
  destruct (Eigen.read_ref primals ra) as [a|] eqn:Ha; simpl in Hstep; [|done].
  destruct (us op !! kk) as [ut|] eqn:Hut; simpl in Hstep; [|done].
  destruct (ut !! i) as [u|] eqn:Hu; simpl in Hstep; [|done].
  destruct (Eigen.vadd a u) as [au|] eqn:Hau; simpl in Hstep; [|done].
  rewrite list_lookup_insert_eq in Hstep by done. simpl in Hstep.
  destruct (xs op !! kk) as [x|] eqn:Hx; simpl in Hstep; [|done].
  destruct (Eigen.mat_vec P x) as [Px|] eqn:HPx; simpl in Hstep; [|done].
  destruct (Eigen.vsub au Px) as [r|] eqn:Hr; simpl in Hstep; [|done].
  destruct (assign_at (Strategy.alphas s) kk r) as [al'|] eqn:Hal; simpl in Hstep; [|done].
  apply assign_at_Some in Hal as [Hlta ->]. injection Hstep as <-.
  exists P, a, u, x, r. repeat split; try done; try by eauto.
  unfold shifted_alpha. rewrite Hau; simpl. rewrite HPx; simpl. done.
Qed.

Lemma from_ref_step_total primals other op i kk s P a u x r :
  reads primals other op i kk P a u x → shifted_alpha P a u x = Some r →
  (kk < length (Strategy.Ps s))%nat → (kk < length (Strategy.alphas s))%nat →
  Strategy.from_ref_step primals other op i kk s
  = Some (Strategy.mk (<[kk := P]> (Strategy.Ps s)) (<[kk := r]> (Strategy.alphas s))).
Proof.
  intros ((mP & HmP & HP) & (ra & Hra & Ha) & (ut & Hut & Hu) & Hx) Hr HltP Hlta.
  unfold shifted_alpha in Hr.
  destruct (Eigen.vadd a u) as [au|] eqn:Hau; simpl in Hr; [|done].
  destruct (Eigen.mat_vec P x) as [Px|] eqn:HPx; simpl in Hr; [|done].
  unfold Strategy.from_ref_step.
  rewrite HmP; simpl. rewrite HP; simpl. rewrite assign_at_lt by done; simpl.
  rewrite Hra; simpl. rewrite Ha; simpl. rewrite Hut; simpl. rewrite Hu; simpl.
  rewrite Hau; simpl. rewrite list_lookup_insert_eq by done; simpl.
  rewrite Hx; simpl. rewrite HPx; simpl. rewrite Hr; simpl.
  rewrite assign_at_lt by done. done.
Qed.

Lemma from_ref_step_partial primals other op i kk s s' :
  from_ref_partial primals other op i kk s →
  Strategy.from_ref_step primals other op i kk s = Some s' →
  from_ref_partial primals other op i (S kk) s'.
Proof.
  intros (HlenP & Hlena & Hdone & Hrest) Hstep.
  apply from_ref_step_Some in Hstep as (P & a & u & x & r & Hreads & Hr & HltP & Hlta & ->).
  unfold from_ref_partial; simpl. rewrite !length_insert.
  repeat split; [done|done| |].
  - intros t Ht. destruct (decide (t = kk)) as [->|Hne].
    + exists P, a, u, x, r. rewrite !list_lookup_insert_eq by done. done.
    + destruct (Hdone t) as (P' & a' & u' & x' & r' & ? & ? & ? & ?); [lia|].
      exists P', a', u', x', r'. rewrite !list_lookup_insert_ne by done. done.
  - intros t Ht Hlt. rewrite list_lookup_insert_ne by lia. apply Hrest; lia.
Qed.

(** What a successful [Strategy(other, op, player_idx)] has built. *)
Lemma Strategy_from_ref_Some primals other op i s :
  Strategy.from_ref primals other op i = Some s →
  from_ref_partial primals other op i (length (StrategyRef.Ps other)) s.
Proof.
  unfold Strategy.from_ref; simpl. rewrite length_replicate. intros Hrun.
  apply (for_loop_invariant _ (from_ref_partial primals other op i)) in Hrun; [done| |].
  - unfold from_ref_partial; simpl. rewrite !length_replicate.
    repeat split; [intros; lia|].
    intros t _ Ht. by rewrite lookup_replicate_2.
  - intros kk t t' _. apply from_ref_step_partial.
Qed.

(** It succeeds when every time step can be read and has matching sizes. *)
Lemma Strategy_from_ref_total primals other op i :
  (∀ t, (t < length (StrategyRef.Ps other))%nat → ∃ P a u x r,
     reads primals other op i t P a u x ∧ shifted_alpha P a u x = Some r) →
  ∃ s, Strategy.from_ref primals other op i = Some s.
Proof.
  intros Hall. unfold Strategy.from_ref; simpl. rewrite length_replicate.
  destruct (for_loop_total (Strategy.from_ref_step primals other op i)
              (from_ref_partial primals other op i) (length (StrategyRef.Ps other)) 0
              (Strategy.mk (replicate (length (StrategyRef.Ps other)) Eigen.empty_matrix)
                           (replicate (length (StrategyRef.alphas other)) [])))
    as (s & Hs & _); [| |by exists s].
  - unfold from_ref_partial; simpl. rewrite !length_replicate.
    repeat split; [intros; lia|].
    intros t _ Ht. by rewrite lookup_replicate_2.
  - intros kk t Hkk Hpart.
    destruct (Hall kk) as (P & a & u & x & r & Hreads & Hr); [lia|].
    assert (HltP : (kk < length (Strategy.Ps t))%nat).
    { destruct Hpart as (-> & _). lia. }
    assert (Hlta : (kk < length (Strategy.alphas t))%nat).
    { destruct Hpart as (_ & -> & _).
      destruct Hreads as (_ & (ra & Hra & _) & _). by apply lookup_lt_Some in Hra. }
    eexists. split; [by eapply from_ref_step_total|].
    eapply from_ref_step_partial; [done|]. by eapply from_ref_step_total.
Qed.

(** ** [NumVariables] *)

Lemma layout_lookup initial_idx xdim udim n (k : nat) :
  (k < n)%nat →
  StrategyRef.Ps (layout initial_idx xdim udim n) !! k
    = Some (P_view initial_idx xdim udim k) ∧
  StrategyRef.alphas (layout initial_idx xdim udim n) !! k
    = Some (alpha_view initial_idx xdim udim k).
Proof.
  intros Hk. unfold layout; simpl.
  rewrite !list_lookup_fmap, !lookup_seq_lt by done. done.
Qed.

Lemma layout_lengths initial_idx xdim udim n :
  length (StrategyRef.Ps (layout initial_idx xdim udim n)) = n ∧
  length (StrategyRef.alphas (layout initial_idx xdim udim n)) = n.
Proof. unfold layout; simpl. by rewrite !length_fmap, !length_seq. Qed.

Lemma NumVariables_layout initial_idx xdim udim n :
  (0 < n)%nat → 0 ≤ Z.of_nat n * stride xdim udim < 2 ^ 64 →
  StrategyRef.NumVariables (layout initial_idx xdim udim n)
  = Returns (Z.of_nat n * stride xdim udim).
Proof.
  intros Hn Hfit. unfold StrategyRef.NumVariables.
  destruct (layout_lengths initial_idx xdim udim n) as [HP Ha].
  rewrite HP, Ha, decide_True by done.
  destruct n as [|n]; [lia|]. unfold layout; simpl.
  unfold Eigen.map_size; simpl. fold (stride xdim udim).
  by rewrite to_size_t_id.
Qed.

Lemma NumVariables_zero_strategy n xdim udim :
  (0 < n)%nat → 0 ≤ xdim → 0 ≤ udim →
  Z.of_nat n * (udim * xdim + udim) < 2 ^ 64 →
  Strategy.NumVariables (zero_strategy n xdim udim)
  = Returns (Z.of_nat n * (udim * xdim + udim)).
Proof.
  intros Hn Hx Hu Hfit. unfold Strategy.NumVariables, zero_strategy; simpl.
  rewrite !length_replicate, decide_True by done.
  destruct n as [|n]; [lia|]. simpl.
  unfold zero_feedforward, Eigen.size; simpl. rewrite length_replicate, Z2Nat.id by done.
  rewrite to_size_t_id; [done|]. nia.
Qed.

(** The strategy built from a view has as many variables as the view, and
    [NumVariables] fails on the one exactly when it fails on the other. *)
Lemma NumVariables_from_ref primals other op i s :
  Strategy.from_ref primals other op i = Some s →
  Strategy.NumVariables s = StrategyRef.NumVariables other.
Proof.
  intros Hs. apply Strategy_from_ref_Some in Hs as (HlenP & Hlena & Hdone & _).
  unfold Strategy.NumVariables, StrategyRef.NumVariables.
  rewrite HlenP, Hlena. case_decide as Heq; [|done].
  destruct (StrategyRef.Ps other) as [|mP0 mPs] eqn:HPs.
  { destruct (Strategy.Ps s); [done|simpl in *; lia]. }
  destruct (StrategyRef.alphas other) as [|ra0 ras] eqn:Has; [simpl in *; lia|].
  destruct (Hdone 0%nat) as (P & a & u & x & r & Hreads & Hr & HP & Hal); [simpl; lia|].
  destruct (Strategy.Ps s) as [|P0 Ps0]; [done|].
  destruct (Strategy.alphas s) as [|a0 al0]; [done|].
  simpl in HP, Hal. simplify_eq.
  destruct Hreads as ((mP & HmP & HrP) & (ra & Hra & Hrr) & _).
  rewrite HPs in HmP. rewrite Has in Hra. simpl in *. simplify_eq.
  apply read_map_Some in HrP as (HrowsP & HcolsP & _).
  apply read_range_Some in Hrr as (_ & _ & _ & _ & Hlen).
  unfold shifted_alpha in Hr.
  destruct (Eigen.vadd _ u) as [au|] eqn:Hau; simpl in Hr; [|done].
  destruct (Eigen.mat_vec _ x) as [Px|] eqn:HPx; simpl in Hr; [|done].
  apply length_cwise in Hr, Hau. rewrite Hr, Hau, Hlen.
  unfold Eigen.size, Eigen.map_size. by rewrite HrowsP, HcolsP.
Qed.

Lemma length_interleave (l1 : list Eigen.MapMatrixXf) (l2 : list Eigen.RefVectorXf) :
  length l1 = length l2 →
  length (interleave l1 l2) = (2 * length l1)%nat.
Proof.
  revert l2. induction l1 as [|P l1 IH]; intros [|a l2] Hlen; simpl in *; try done.
  rewrite (IH l2) by lia. lia.
Qed.

(** A successfully built [StrategyRef] has [horizon] gains and feedforward
    terms, and for [horizon >= 1] its [NumVariables()] is defined. *)
Lemma strategy_ref_layout_facts horizon xdim udim primals initial_idx r :
  is_size_t horizon → is_size_t initial_idx → is_int xdim → is_int udim →
  StrategyRef.make horizon xdim udim primals initial_idx = Some r →
  (length (StrategyRef.Ps r) = Z.to_nat horizon ∧
   length (StrategyRef.alphas r) = Z.to_nat horizon) ∧
  (0 < horizon →
   StrategyRef.NumVariables r = Returns (horizon * (xdim * udim + udim))).
Proof.
  intros Hh Hi Hx Hu Hmake.
  apply StrategyRef_make_Some in Hmake as [-> Hpos]; try done.
  assert (Hn : Z.of_nat (Z.to_nat horizon) = horizon) by (unfold is_size_t in Hh; lia).
  split; [apply layout_lengths|]. intros Hpos'.
  destruct Hpos as (? & ? & ? & ? & ? & ?); [lia|].
  rewrite NumVariables_layout; unfold stride in *; rewrite ?Hn in *; [done|lia|].
  unfold is_size_t in Hi. nia.
Qed.

(** * The claims *)

(** C9.  [StrategyRef(h, xdim, udim, primals, initial_idx)] views one
    contiguous block of the primal buffer.  The construction succeeds when
    the dimensions are not negative, [xdim * udim] fits [int] and the block
    of [h * (xdim * udim + udim)] coefficients from [initial_idx] on lies
    inside the buffer.  Whenever it succeeds, the view [Ps[k]] starts at
    [initial_idx + k * (xdim * udim + udim)] and [alphas[k]] right after
    its [xdim * udim] coefficients; the ranges, taken in the order
    [P_0, alpha_0, P_1, alpha_1, ...], follow one another without gap from
    [initial_idx] to [initial_idx + h * (xdim * udim + udim)], so they cover
    these positions exactly, are pairwise disjoint and hold
    [h * (xdim * udim + udim)] coefficients in all, which lie inside the
    buffer and are as many as [NumVariables()] returns (for [h >= 1], where
    it is defined). *)
Theorem strategy_ref_partitions_block horizon xdim udim primals initial_idx :
  is_size_t horizon → is_size_t initial_idx → is_int xdim → is_int udim →
  let size := Z.of_nat (length primals) in
  let total := horizon * (xdim * udim + udim) in
  (0 ≤ xdim → 0 ≤ udim → xdim * udim ≤ INT_MAX → size < 2 ^ 63 →
   initial_idx + total ≤ size → (0 < horizon → initial_idx < size) →
   is_Some (StrategyRef.make horizon xdim udim primals initial_idx)) ∧
  ∀ r, StrategyRef.make horizon xdim udim primals initial_idx = Some r →
    (∀ k : nat, Z.of_nat k < horizon →
       StrategyRef.Ps r !! k
         = Some (Eigen.mkMap (initial_idx + Z.of_nat k * (xdim * udim + udim)) xdim udim) ∧
       StrategyRef.alphas r !! k
         = Some (Eigen.mkRef (initial_idx + Z.of_nat k * (xdim * udim + udim) + xdim * udim)
                             udim)) ∧
    Z.of_nat (length (ranges r)) = 2 * horizon ∧
    chained initial_idx (ranges r) (initial_idx + total) ∧
    (∀ p, Exists (in_range p) (ranges r)
          ↔ initial_idx ≤ p < initial_idx + total) ∧
    (∀ i j ρi ρj p, i ≠ j →
       ranges r !! i = Some ρi → ranges r !! j = Some ρj →
       ¬ (in_range p ρi ∧ in_range p ρj)) ∧
    total_length (ranges r) = total ∧
    (0 < horizon →
       initial_idx + total ≤ size ∧ StrategyRef.NumVariables r = Returns total).
Proof.
  intros Hh Hi Hx Hu size total. split.
  { intros Hx0 Hu0 Hprod Hsize Hfit Hinit.
    unfold is_size_t in Hh.
    rewrite StrategyRef_make_total; [done|lia|unfold is_size_t in Hi; lia|done..]. }
  intros r Hmake.
  apply StrategyRef_make_Some in Hmake as [-> Hpos]; try done.
  fold size in Hpos.
  assert (Hn : Z.of_nat (Z.to_nat horizon) = horizon) by (unfold is_size_t in Hh; lia).
  rewrite Hn in Hpos. unfold stride in Hpos. fold total in Hpos.
  assert (Hchain : chained initial_idx
            (ranges (layout initial_idx xdim udim (Z.to_nat horizon)))
            (initial_idx + total)).
  { destruct (decide (horizon = 0)) as [->|Hne].
    - simpl. unfold total. lia.
    - destruct Hpos as (? & ? & _); [lia|].
      pose proof (layout_chained initial_idx xdim udim (Z.to_nat horizon)) as Hc.
      rewrite Hn in Hc. by apply Hc. }
  split; [|split; [|split; [|split; [|split; [|split]]]]].
  - intros k Hk. by apply layout_lookup; lia.
  - destruct (layout_lengths initial_idx xdim udim (Z.to_nat horizon)) as [HP Ha].
    unfold ranges. rewrite length_interleave, HP by congruence. lia.
  - exact Hchain.
  - intros p. by apply chained_cover.
  - intros i j ρi ρj p Hij Hli Hlj [Hpi Hpj].
    by eapply (chained_disjoint _ _ _ i j).
  - rewrite (chained_total_length _ _ _ Hchain). lia.
  - intros Hpos'. destruct Hpos as (? & ? & ? & ? & ? & ?); [lia|]. split; [done|].
    rewrite NumVariables_layout; unfold stride; rewrite ?Hn; [done|lia|].
    fold total. unfold is_size_t in Hi. unfold total in *. nia.
Qed.

Lemma strategy_ref_partitions_block_witness :
  ∃ r, StrategyRef.make 2 2 1 witness_buffer 1 = Some r ∧
       ranges r = [(1, 2); (3, 1); (4, 2); (6, 1)] ∧
       chained 1 (ranges r) 7 ∧
       StrategyRef.NumVariables r = Returns 6.
Proof.
  assert (H2 : is_size_t 2) by by_evaluation.
  assert (H1 : is_size_t 1) by by_evaluation.
  assert (Hx : is_int 2) by by_evaluation.
  assert (Hu : is_int 1) by by_evaluation.
  destruct (strategy_ref_partitions_block 2 2 1 witness_buffer 1 H2 H1 Hx Hu)
    as [Htotal Hprops].
  destruct Htotal as [r Hr]; [by_evaluation..|].
  exists r. split; [exact Hr|].
  destruct (Hprops r Hr) as (_ & _ & Hchain & _ & _ & _ & Hnum).
  split; [|split; [exact Hchain|apply Hnum; reflexivity]].
  vm_compute in Hr. injection Hr as <-. reflexivity.
Defined.

(** [NumVariables()] returns a number exactly on the objects whose [Ps] is
    not empty and as long as their [alphas]. *)
Lemma Strategy_NumVariables_Returns s :
  (∃ n, Strategy.NumVariables s = Returns n)
  ↔ Strategy.Ps s ≠ [] ∧ length (Strategy.Ps s) = length (Strategy.alphas s).
Proof.
  unfold Strategy.NumVariables.
  destruct (Strategy.Ps s) as [|P Ps], (Strategy.alphas s) as [|a al];
    cbn [length]; destruct (decide _) as [Heq|Hne]; split;
    try (intros [n Hn]; done); try (intros [? ?]; done);
    try (intros [? ?]; lia).
  - intros _. split; [done|lia].
  - intros _. by eexists.
Qed.

Lemma StrategyRef_NumVariables_Returns s :
  (∃ n, StrategyRef.NumVariables s = Returns n)
  ↔ StrategyRef.Ps s ≠ [] ∧ length (StrategyRef.Ps s) = length (StrategyRef.alphas s).
Proof.
  unfold StrategyRef.NumVariables.
  destruct (StrategyRef.Ps s) as [|P Ps], (StrategyRef.alphas s) as [|a al];
    cbn [length]; destruct (decide _) as [Heq|Hne]; split;
    try (intros [n Hn]; done); try (intros [? ?]; done);
    try (intros [? ?]; lia).
  - intros _. split; [done|lia].
  - intros _. by eexists.
Qed.

(** C4.  For a horizon [h >= 1], [NumVariables()] returns
    [h * (udim * xdim + udim)] on the strategy built by
    [Strategy(h, xdim, udim)] (provided that number fits [size_t], as it does
    for every strategy that fits in memory) and on the view built by
    [StrategyRef(h, xdim, udim, primals, initial_idx)]; and a [Strategy]
    built from a [StrategyRef] has the [NumVariables()] of that
    [StrategyRef]. *)
Theorem num_variables_count horizon xdim udim primals initial_idx op player_idx :
  1 ≤ horizon ≤ SIZE_MAX → is_int xdim → is_int udim → is_size_t initial_idx →
  let count := horizon * (udim * xdim + udim) in
  (∀ s, Strategy.make horizon xdim udim = Some s → count ≤ SIZE_MAX →
        Strategy.NumVariables s = Returns count) ∧
  (∀ r, StrategyRef.make horizon xdim udim primals initial_idx = Some r →
        StrategyRef.NumVariables r = Returns count) ∧
  (∀ other s, Strategy.from_ref primals other op player_idx = Some s →
        Strategy.NumVariables s = StrategyRef.NumVariables other).
Proof.
  intros Hh Hx Hu Hi count.
  assert (Hn : Z.of_nat (Z.to_nat horizon) = horizon) by lia.
  split; [|split].
  - intros s Hs Hfit. apply Strategy_make_Some in Hs as [-> Hdims].
    destruct Hdims as [Hx0 Hu0]; [lia|].
    rewrite NumVariables_zero_strategy; rewrite ?Hn; try done; try lia.
    unfold count, SIZE_MAX in Hfit. lia.
  - intros r Hr.
    destruct (strategy_ref_layout_facts horizon xdim udim primals initial_idx r)
      as (_ & Hnum); try done; [unfold is_size_t; lia|].
    rewrite Hnum by lia. unfold count. f_equal. lia.
  - intros other s. apply NumVariables_from_ref.
Qed.

Lemma num_variables_count_witness :
  (∃ s, Strategy.make 2 1 1 = Some s ∧ Strategy.NumVariables s = Returns 4) ∧
  (∃ r, StrategyRef.make 2 1 1 witness_buffer 0 = Some r ∧
        StrategyRef.NumVariables r = Returns 4 ∧
        ∃ s, Strategy.from_ref witness_buffer r witness_op 0 = Some s ∧
             Strategy.NumVariables s = Returns 4).
Proof.
  assert (H2 : 1 ≤ 2 ≤ SIZE_MAX) by by_evaluation.
  assert (H0 : is_size_t 0) by by_evaluation.
  assert (H1 : is_int 1) by by_evaluation.
  destruct (num_variables_count 2 1 1 witness_buffer 0 witness_op 0%nat H2 H1 H1 H0)
    as (Hzero & Href & Hfrom).
  split.
  - pose (s := zero_strategy 2 1 1).
    assert (Hs : Strategy.make 2 1 1 = Some s) by (vm_compute; reflexivity).
    exists s. split; [exact Hs|].
    apply (Hzero s Hs). by_evaluation.
  - pose (r := layout 0 1 1 2).
    assert (Hr : StrategyRef.make 2 1 1 witness_buffer 0 = Some r)
      by (vm_compute; reflexivity).
    exists r. split; [exact Hr|]. split; [exact (Href r Hr)|].
    destruct (Strategy.from_ref witness_buffer r witness_op 0) as [s|] eqn:Hs;
      [|vm_compute in Hs; discriminate].
    exists s. split; [reflexivity|].
    rewrite (Hfrom r s Hs). exact (Href r Hr).
Defined.

(** C8.  [NumVariables()], on a [Strategy] and on a [StrategyRef], returns a
    number only on an object whose [Ps] is not empty: on an object with no
    time step it passes the [CHECK_EQ] and then takes [front()] of an empty
    vector.  On every object built by the constructors, [Ps] and [alphas]
    have the same length (the horizon), so that the [CHECK_EQ] does not
    fail, and for a horizon of at least [1] the function returns. *)
Theorem num_variables_precondition horizon xdim udim primals initial_idx op player_idx :
  is_size_t horizon → is_size_t initial_idx → is_int xdim → is_int udim →
  ((∀ s n, Strategy.NumVariables s = Returns n → Strategy.Ps s ≠ []) ∧
   (∀ r n, StrategyRef.NumVariables r = Returns n → StrategyRef.Ps r ≠ []) ∧
   Strategy.NumVariables (Strategy.mk [] []) = UndefinedBehaviour ∧
   StrategyRef.NumVariables (StrategyRef.mk [] []) = UndefinedBehaviour) ∧
  (∀ s, Strategy.make horizon xdim udim = Some s →
     length (Strategy.Ps s) = Z.to_nat horizon ∧
     length (Strategy.alphas s) = Z.to_nat horizon ∧
     Strategy.NumVariables s ≠ CheckFailure ∧
     (horizon = 0 → Strategy.NumVariables s = UndefinedBehaviour) ∧
     (1 ≤ horizon → ∃ n, Strategy.NumVariables s = Returns n)) ∧
  (∀ r, StrategyRef.make horizon xdim udim primals initial_idx = Some r →
     length (StrategyRef.Ps r) = Z.to_nat horizon ∧
     length (StrategyRef.alphas r) = Z.to_nat horizon ∧
     StrategyRef.NumVariables r ≠ CheckFailure ∧
     (horizon = 0 → StrategyRef.NumVariables r = UndefinedBehaviour) ∧
     (1 ≤ horizon → ∃ n, StrategyRef.NumVariables r = Returns n) ∧
     ∀ s, Strategy.from_ref primals r op player_idx = Some s →
       length (Strategy.Ps s) = Z.to_nat horizon ∧
       length (Strategy.alphas s) = Z.to_nat horizon ∧
       Strategy.NumVariables s ≠ CheckFailure ∧
       (horizon = 0 → Strategy.NumVariables s = UndefinedBehaviour) ∧
       (1 ≤ horizon → ∃ n, Strategy.NumVariables s = Returns n)).
Proof.
  intros Hh Hi Hx Hu.
  assert (Hstrategy : ∀ s : Strategy.t,
    length (Strategy.Ps s) = Z.to_nat horizon →
    length (Strategy.alphas s) = Z.to_nat horizon →
    Strategy.NumVariables s ≠ CheckFailure ∧
    (horizon = 0 → Strategy.NumVariables s = UndefinedBehaviour) ∧
    (1 ≤ horizon → ∃ n, Strategy.NumVariables s = Returns n)).
  { intros s HP Ha. split; [|split].
    - unfold Strategy.NumVariables. rewrite HP, Ha, decide_True by done.
      by destruct (Strategy.Ps s), (Strategy.alphas s).
    - intros ->. unfold Strategy.NumVariables. rewrite HP, Ha, decide_True by done.
      by destruct (Strategy.Ps s).
    - intros Hpos. apply Strategy_NumVariables_Returns. split; [|congruence].
      intros Hnil. rewrite Hnil in HP. simpl in HP. lia. }
  assert (Href : ∀ r : StrategyRef.t,
    length (StrategyRef.Ps r) = Z.to_nat horizon →
    length (StrategyRef.alphas r) = Z.to_nat horizon →
    StrategyRef.NumVariables r ≠ CheckFailure ∧
    (horizon = 0 → StrategyRef.NumVariables r = UndefinedBehaviour) ∧
    (1 ≤ horizon → ∃ n, StrategyRef.NumVariables r = Returns n)).
  { intros r HP Ha. split; [|split].
    - unfold StrategyRef.NumVariables. rewrite HP, Ha, decide_True by done.
      by destruct (StrategyRef.Ps r), (StrategyRef.alphas r).
    - intros ->. unfold StrategyRef.NumVariables. rewrite HP, Ha, decide_True by done.
      by destruct (StrategyRef.Ps r).
    - intros Hpos. apply StrategyRef_NumVariables_Returns. split; [|congruence].
      intros Hnil. rewrite Hnil in HP. simpl in HP. lia. }
  split; [|split].
  - repeat split; try done.
    + intros s n Hn. by apply (proj1 (Strategy_NumVariables_Returns s)); exists n.
    + intros r n Hn. by apply (proj1 (StrategyRef_NumVariables_Returns r)); exists n.
  - intros s Hs. apply Strategy_make_Some in Hs as [-> _].
    assert (HP : length (Strategy.Ps (zero_strategy (Z.to_nat horizon) xdim udim))
                 = Z.to_nat horizon) by (simpl; apply length_replicate).
    assert (Ha : length (Strategy.alphas (zero_strategy (Z.to_nat horizon) xdim udim))
                 = Z.to_nat horizon) by (simpl; apply length_replicate).
    split; [done|]. split; [done|]. by apply Hstrategy.
  - intros r Hr.
    destruct (strategy_ref_layout_facts _ _ _ _ _ _ Hh Hi Hx Hu Hr) as [[HP Ha] _].
    split; [done|]. split; [done|].
    destruct (Href r HP Ha) as (Hcheck & Hub & Hret).
    split; [done|]. split; [done|]. split; [done|].
    intros s Hs. apply Strategy_from_ref_Some in Hs as (HlenP & Hlena & _).
    rewrite HP in HlenP. rewrite Ha in Hlena.
    split; [done|]. split; [done|]. by apply Hstrategy.
Qed.

Lemma num_variables_precondition_witness :
  (∃ s, Strategy.make 0 1 1 = Some s ∧
        Strategy.NumVariables s = UndefinedBehaviour) ∧
  (∃ r, StrategyRef.make 0 1 1 witness_buffer 0 = Some r ∧
        StrategyRef.NumVariables r = UndefinedBehaviour) ∧
  (∃ s, Strategy.make 2 1 1 = Some s ∧ Strategy.NumVariables s ≠ CheckFailure).
Proof.
  assert (H0 : is_size_t 0) by by_evaluation.
  assert (H2 : is_size_t 2) by by_evaluation.
  assert (H1 : is_int 1) by by_evaluation.
  destruct (num_variables_precondition 0 1 1 witness_buffer 0 witness_op 0%nat
              H0 H0 H1 H1) as (_ & Hzero & Href).
  destruct (num_variables_precondition 2 1 1 witness_buffer 0 witness_op 0%nat
              H2 H0 H1 H1) as (_ & Hzero2 & _).
  split; [|split].
  - exists (zero_strategy 0 1 1).
    assert (Hs : Strategy.make 0 1 1 = Some (zero_strategy 0 1 1))
      by (vm_compute; reflexivity).
    split; [exact Hs|]. destruct (Hzero _ Hs) as (_ & _ & _ & Hub & _).
    apply Hub. reflexivity.
  - exists (layout 0 1 1 0).
    assert (Hr : StrategyRef.make 0 1 1 witness_buffer 0 = Some (layout 0 1 1 0))
      by (vm_compute; reflexivity).
    split; [exact Hr|]. destruct (Href _ Hr) as (_ & _ & _ & Hub & _).
    apply Hub. reflexivity.
  - exists (zero_strategy 2 1 1).
    assert (Hs : Strategy.make 2 1 1 = Some (zero_strategy 2 1 1))
      by (vm_compute; reflexivity).
    split; [exact Hs|]. destruct (Hzero2 _ Hs) as (_ & _ & Hcheck & _).
    exact Hcheck.
Defined.

(** The stored feedforward term, coefficient by coefficient. *)
Lemma shifted_alpha_lookup P a u x r :
  shifted_alpha P a u x = Some r →
  length r = length a ∧
  ∀ j aj uj, a !! j = Some aj → u !! j = Some uj →
    r !! j = Some (fsub (fadd aj uj) (Eigen.row_dot P j x)).
Proof.
  unfold shifted_alpha. intros Hr.
  destruct (Eigen.vadd a u) as [au|] eqn:Hau; simpl in Hr; [|done].
  destruct (Eigen.mat_vec P x) as [Px|] eqn:HPx; simpl in Hr; [|done].
  pose proof (length_cwise _ _ _ _ Hau) as Hlau.
  pose proof (length_cwise _ _ _ _ Hr) as Hlr.
  destruct (cwise_Some _ _ _ _ Hr) as [HlPx _].
  pose proof (length_mat_vec _ _ _ HPx) as Hrows.
  split; [congruence|]. intros j aj uj Haj Huj.
  apply (lookup_cwise _ _ _ _ j (fadd aj uj) (Eigen.row_dot P j x) Hr).
  - by apply (lookup_cwise _ _ _ _ j aj uj Hau).
  - apply (lookup_mat_vec _ _ _ _ HPx). apply lookup_lt_Some in Haj. lia.
Qed.

Lemma shifted_alpha_total P a u x :
  length a = length u → Eigen.cols P = Z.of_nat (length x) →
  Eigen.rows P = Z.of_nat (length a) →
  is_Some (shifted_alpha P a u x).
Proof.
  intros Hau HPx Hrows. unfold shifted_alpha, Eigen.vadd, Eigen.vsub.
  rewrite cwise_total by done. simpl.
  rewrite mat_vec_total by done. simpl.
  rewrite cwise_total; [done|].
  rewrite length_zip_with, length_fmap, length_seq. lia.
Qed.

(** C1.  Let [other] be a [StrategyRef] over the buffer [primals], [op] an
    operating point and [i] a player such that, at every time step [t] of
    [other], the gain [P], the feedforward term [a], the nominal control [u]
    of player [i] and the nominal state [x] can be read and have matching
    sizes ([a] and [u] of the same size, which is the number of rows of
    [P], and [x] of the size of a row of [P]).  Then
    [Strategy(other, op, i)] is constructed, has the horizon of [other], and
    at every time step [t] its gain is [P] and its feedforward term is
    [a + u - P * x]: coefficient [j] is [(a[j] + u[j]) - (row j of P) * x],
    in [float] arithmetic. *)
Theorem strategy_from_ref_feedforward primals other op player_idx :
  (∀ t, (t < length (StrategyRef.Ps other))%nat → ∃ P a u x,
     reads primals other op player_idx t P a u x ∧
     length a = length u ∧ Eigen.cols P = Z.of_nat (length x) ∧
     Eigen.rows P = Z.of_nat (length a)) →
  ∃ s, Strategy.from_ref primals other op player_idx = Some s ∧
    length (Strategy.Ps s) = length (StrategyRef.Ps other) ∧
    ∀ t P a u x, reads primals other op player_idx t P a u x →
      Strategy.Ps s !! t = Some P ∧
      ∃ r, Strategy.alphas s !! t = Some r ∧ length r = length a ∧
        ∀ j aj uj, a !! j = Some aj → u !! j = Some uj →
          r !! j = Some (fsub (fadd aj uj) (Eigen.row_dot P j x)).
Proof.
  intros Hwf.
  destruct (Strategy_from_ref_total primals other op player_idx) as [s Hs].
  { intros t Ht. destruct (Hwf t Ht) as (P & a & u & x & Hreads & Hau & HPx & Hrows).
    destruct (shifted_alpha_total P a u x Hau HPx Hrows) as [r Hr].
    by exists P, a, u, x, r. }
  exists s. split; [done|].
  apply Strategy_from_ref_Some in Hs as (HlenP & _ & Hdone & _).
  split; [done|]. intros t P a u x Hreads.
  assert (Ht : (t < length (StrategyRef.Ps other))%nat).
  { destruct Hreads as ((mP & HmP & _) & _). by apply lookup_lt_Some in HmP. }
  destruct (Hdone t Ht) as (P' & a' & u' & x' & r & Hreads' & Hr & HP & Hal).
  destruct (reads_functional _ _ _ _ _ _ _ _ _ _ _ _ _ Hreads Hreads')
    as (-> & -> & -> & ->).
  split; [done|]. exists r. split; [done|]. by apply shifted_alpha_lookup.
Qed.

(** C5.  On a strategy whose gain [P] at time step [t] has as many columns
    as [delta_x] has coefficients and as many rows as [u_ref] has
    coefficients, and whose feedforward term [a] at [t] has the size of
    [u_ref], [operator()(t, delta_x, u_ref)] returns
    [u_ref - P * delta_x - a]: a vector of the size of [u_ref] whose
    coefficient [j] is [(u_ref[j] - (row j of P) * delta_x) - a[j]], in
    [float] arithmetic. *)
Theorem strategy_control_law s t P a delta_x u_ref :
  Strategy.Ps s !! t = Some P → Strategy.alphas s !! t = Some a →
  Eigen.cols P = Z.of_nat (length delta_x) →
  Eigen.rows P = Z.of_nat (length u_ref) →
  length a = length u_ref →
  ∃ u, Strategy.call s t delta_x u_ref = Some u ∧ length u = length u_ref ∧
    ∀ j uj aj, u_ref !! j = Some uj → a !! j = Some aj →
      u !! j = Some (fsub (fsub uj (Eigen.row_dot P j delta_x)) aj).
Proof.
  intros HP Ha Hcols Hrows Hlen. unfold Strategy.call.
  rewrite HP; simpl. rewrite mat_vec_total by done; simpl.
  set (Pdx := (λ i, Eigen.row_dot P i delta_x) <$> seq 0 (Z.to_nat (Eigen.rows P))).
  assert (HlPdx : length Pdx = length u_ref).
  { unfold Pdx. rewrite length_fmap, length_seq. lia. }
  unfold Eigen.vsub. rewrite (cwise_total fsub u_ref Pdx) by done; simpl.
  rewrite Ha; simpl.
  assert (Hld : length (zip_with fsub u_ref Pdx) = length u_ref).
  { rewrite length_zip_with. lia. }
  rewrite cwise_total by congruence.
  eexists. split; [done|]. split; [rewrite length_zip_with; lia|].
  intros j uj aj Huj Haj. rewrite !lookup_zip_with, Huj, Haj; simpl.
  unfold Pdx. rewrite list_lookup_fmap, lookup_seq_lt; [done|].
  apply lookup_lt_Some in Huj. lia.
Qed.

Lemma witness_reads_0 :
  reads witness_buffer (layout 0 1 1 2) witness_op 0 0
    (Eigen.mkMatrix 1 1 [float_of_Z 1]) [float_of_Z 2] [float_of_Z 0] [float_of_Z 1].
Proof.
  split; [|split; [|split]].
  - exists (Eigen.mkMap 0 1 1). split; vm_compute; reflexivity.
  - exists (Eigen.mkRef 1 1). split; vm_compute; reflexivity.
  - exists [[float_of_Z 0]]. split; reflexivity.
  - reflexivity.
Defined.

Lemma witness_reads_1 :
  reads witness_buffer (layout 0 1 1 2) witness_op 0 1
    (Eigen.mkMatrix 1 1 [float_of_Z 3]) [float_of_Z 4] [float_of_Z 0] [float_of_Z 1].
Proof.
  split; [|split; [|split]].
  - exists (Eigen.mkMap 2 1 1). split; vm_compute; reflexivity.
  - exists (Eigen.mkRef 3 1). split; vm_compute; reflexivity.
  - exists [[float_of_Z 0]]. split; reflexivity.
  - reflexivity.
Defined.

Lemma strategy_from_ref_feedforward_witness :
  ∃ s, Strategy.from_ref witness_buffer (layout 0 1 1 2) witness_op 0 = Some s ∧
    ∃ r, Strategy.alphas s !! 0%nat = Some r ∧ r !! 0%nat = Some (float_of_Z 1).
Proof.
  destruct (strategy_from_ref_feedforward witness_buffer (layout 0 1 1 2) witness_op 0)
    as (s & Hs & _ & Hall).
  { intros t Ht. destruct t as [|[|t]].
    - eexists _, _, _, _. split; [exact witness_reads_0|]. by_evaluation.
    - eexists _, _, _, _. split; [exact witness_reads_1|]. by_evaluation.
    - simpl in Ht. lia. }
  exists s. split; [exact Hs|].
  destruct (Hall _ _ _ _ _ witness_reads_0) as (_ & r & Hr & _ & Hj).
  exists r. split; [exact Hr|].
  rewrite (Hj 0%nat (float_of_Z 2) (float_of_Z 0)); [|reflexivity..].
  vm_compute. reflexivity.
Defined.

Lemma strategy_control_law_witness :
  ∃ u, Strategy.call (Strategy.mk [Eigen.mkMatrix 1 1 [float_of_Z 2]] [[float_of_Z 6]])
         0 [float_of_Z 3] [float_of_Z 5] = Some u ∧
       u !! 0%nat = Some (float_of_Z (-7)).
Proof.
  destruct (strategy_control_law
              (Strategy.mk [Eigen.mkMatrix 1 1 [float_of_Z 2]] [[float_of_Z 6]])
              0 (Eigen.mkMatrix 1 1 [float_of_Z 2]) [float_of_Z 6]
              [float_of_Z 3] [float_of_Z 5])
    as (u & Hu & _ & Hj); [reflexivity..|].
  exists u. split; [exact Hu|].
  rewrite (Hj 0%nat (float_of_Z 5) (float_of_Z 6)); [|reflexivity..].
  vm_compute. reflexivity.
Defined.

(** ** Arithmetic with zero in [float] *)

Lemma fsub_zero_r x : fsub x fzero = x.
Proof. by destruct x as [[]|[]| |[] ? ?]. Qed.

Lemma fmul_zero_finite x :
  is_finite x = true → ∃ s, fmul fzero x = S754_zero s.
Proof. destruct x as [s|s| |s m e]; simpl; intros Hfin; try done; by eexists. Qed.

Lemma fadd_zero_zero s : fadd fzero (S754_zero s) = fzero.
Proof. by destruct s. Qed.

(** Every coefficient of the zero gain is [+0]. *)
Lemma zero_gain_coeff xdim udim i j : Eigen.coeff (zero_gain xdim udim) i j = fzero.
Proof.
  unfold Eigen.coeff, zero_gain; simpl.
  destruct (replicate _ fzero !! _) as [c|] eqn:Hc; simpl; [|done].
  by apply lookup_replicate in Hc as [-> _].
Qed.

(** A row of the zero gain times a vector without infinities or NaNs. *)
Lemma zero_gain_row_dot xdim udim i x :
  Forall (λ c, is_finite c = true) x →
  Eigen.row_dot (zero_gain xdim udim) i x = fzero.
Proof.
  unfold Eigen.row_dot. generalize 0%nat as j.
  induction x as [|c x IH]; intros j Hfin; cbn [Eigen.dot_from]; [done|].
  inversion Hfin as [|? ? Hc Hx]; subst.
  rewrite zero_gain_coeff. destruct (fmul_zero_finite c Hc) as [s ->].
  rewrite fadd_zero_zero. by apply IH.
Qed.

Lemma zip_with_fsub_zeros (u : list float) n :
  length u = n → zip_with fsub u (replicate n fzero) = u.
Proof.
  revert n. induction u as [|c u IH]; intros [|n] Hlen; simpl in *; try done.
  rewrite fsub_zero_r, IH by lia. done.
Qed.

(** C6, as amended.  [Strategy(h, xdim, udim)] succeeds for dimensions that
    are not negative, and what it builds is the zero strategy: at every time
    step [t < h] the gain is the [udim x xdim] matrix of zeros and the
    feedforward term the vector of [udim] zeros.  Its control law
    [operator()(t, delta_x, u_ref)] returns [u_ref] itself for every [u_ref]
    of size [udim] and every [delta_x] of size [xdim] whose coefficients are
    finite (neither infinite nor NaN). *)
Theorem zero_strategy_identity horizon xdim udim :
  (0 ≤ xdim → 0 ≤ udim → is_Some (Strategy.make horizon xdim udim)) ∧
  ∀ s, Strategy.make horizon xdim udim = Some s →
    ∀ t : nat, Z.of_nat t < horizon →
      (∃ P, Strategy.Ps s !! t = Some P ∧
            Eigen.rows P = udim ∧ Eigen.cols P = xdim ∧
            Z.of_nat (length (Eigen.coeffs P)) = udim * xdim ∧
            Forall (λ c, c = fzero) (Eigen.coeffs P)) ∧
      (∃ a, Strategy.alphas s !! t = Some a ∧
            Z.of_nat (length a) = udim ∧ Forall (λ c, c = fzero) a) ∧
      ∀ delta_x u_ref,
        Z.of_nat (length delta_x) = xdim → Z.of_nat (length u_ref) = udim →
        Forall (λ c, is_finite c = true) delta_x →
        Strategy.call s t delta_x u_ref = Some u_ref.
Proof.
  split.
  { intros Hx Hu. by rewrite Strategy_make_total. }
  intros s Hs t Ht.
  apply Strategy_make_Some in Hs as [-> Hdims].
  destruct Hdims as [Hx Hu]; [lia|].
  assert (HP : Strategy.Ps (zero_strategy (Z.to_nat horizon) xdim udim) !! t
               = Some (zero_gain xdim udim)).
  { simpl. apply lookup_replicate_2. lia. }
  assert (Ha : Strategy.alphas (zero_strategy (Z.to_nat horizon) xdim udim) !! t
               = Some (zero_feedforward udim)).
  { simpl. apply lookup_replicate_2. lia. }
  split; [|split].
  - exists (zero_gain xdim udim). split; [done|]. simpl.
    rewrite length_replicate. repeat split; [nia|].
    by apply Forall_replicate.
  - exists (zero_feedforward udim). split; [done|]. unfold zero_feedforward.
    rewrite length_replicate. split; [lia|].
    by apply Forall_replicate.
  - intros delta_x u_ref Hdx Hu_ref Hfin. unfold Strategy.call.
    rewrite HP, Ha; simpl. rewrite mat_vec_total by (simpl; lia); simpl.
    assert (HPdx : (λ i, Eigen.row_dot (zero_gain xdim udim) i delta_x)
                     <$> seq 0 (Z.to_nat udim) = replicate (Z.to_nat udim) fzero).
    { clear -Hfin. generalize 0%nat as start.
      induction (Z.to_nat udim) as [|n IH]; intros start; simpl; [done|].
      by rewrite zero_gain_row_dot, IH. }
    rewrite HPdx. unfold Eigen.vsub.
    rewrite cwise_total by (rewrite length_replicate; lia); simpl.
    rewrite zip_with_fsub_zeros by lia.
    unfold zero_feedforward.
    rewrite cwise_total by (rewrite length_replicate; lia).
    by rewrite zip_with_fsub_zeros by lia.
Qed.

(** C6 as stated fails for a deviation with an infinite coefficient: zero
    times infinity is NaN, so the zero strategy returns NaN instead of the
    reference control. *)
Lemma zero_strategy_identity_counterexample :
  ∃ s, Strategy.make 1 1 1 = Some s ∧
       Z.of_nat (length [S754_infinity false]) = 1 ∧
       Z.of_nat (length [float_of_Z 1]) = 1 ∧
       Strategy.call s 0 [S754_infinity false] [float_of_Z 1] = Some [S754_nan] ∧
       Strategy.call s 0 [S754_infinity false] [float_of_Z 1] ≠ Some [float_of_Z 1].
Proof.
  exists (zero_strategy 1 1 1). repeat split; try (vm_compute; reflexivity).
  vm_compute. discriminate.
Qed.

Lemma zero_strategy_identity_witness :
  ∃ s, Strategy.make 2 2 1 = Some s ∧
       Strategy.call s 1 [float_of_Z 3; float_of_Z (-4)] [float_of_Z 7]
       = Some [float_of_Z 7].
Proof.
  destruct (zero_strategy_identity 2 2 1) as [Htotal Hall].
  destruct (Htotal ltac:(by_evaluation) ltac:(by_evaluation)) as [s Hs].
  exists s. split; [exact Hs|].
  destruct (Hall s Hs 1%nat) as (_ & _ & Hcall); [by_evaluation|].
  apply Hcall; [reflexivity..|].
  repeat constructor.
Defined.

(** C2.  The control law is not preserved by the construction of a
    [Strategy] from a [StrategyRef].  With the gain [2] and the feedforward
    term [3] in the buffer, the nominal state [1], the nominal control [5]
    and the joint state [4], the view returns [-2 * 4 - 3 = -11], while the
    strategy built from it stores the feedforward term [3 + 5 - 2 * 1 = 6]
    and returns [5 - 2 * (4 - 1) - 6 = -7]: the two differ by
    [2 * P * x_ref]. *)
Lemma strategy_from_ref_changes_law :
  let primals := [float_of_Z 2; float_of_Z 3] in
  let op := mkOperatingPointRef [[float_of_Z 1]] [[[float_of_Z 5]]] in
  let x := [float_of_Z 4] in
  ∃ r s delta_x,
    StrategyRef.make 1 1 1 primals 0 = Some r ∧
    Strategy.from_ref primals r op 0 = Some s ∧
    Strategy.alphas s = [[float_of_Z 6]] ∧
    Eigen.vsub x [float_of_Z 1] = Some delta_x ∧
    StrategyRef.call primals r 0 x = Some [float_of_Z (-11)] ∧
    Strategy.call s 0 delta_x [float_of_Z 5] = Some [float_of_Z (-7)].
Proof.
  intros primals op x.
  exists (layout 0 1 1 1),
         (Strategy.mk [Eigen.mkMatrix 1 1 [float_of_Z 2]] [[float_of_Z 6]]),
         [float_of_Z 3].
  repeat split; vm_compute; reflexivity.
Qed.

(** C3.  The gains of a [StrategyRef] are [xdim x udim], not [udim x xdim]:
    the constructor passes [(xdim, udim)] as the rows and columns of the
    map.  For [xdim = 2] and [udim = 1] the gain of the view has 2 rows and
    1 column and cannot be multiplied with a state of 2 coefficients, while
    the gain that [Strategy(1, 2, 1)] builds has 1 row and 2 columns. *)
Lemma strategy_ref_gain_shape_swapped :
  ∃ r P s Q,
    StrategyRef.make 1 2 1 witness_buffer 0 = Some r ∧
    StrategyRef.Ps r !! 0%nat = Some P ∧
    Eigen.map_rows P = 2 ∧ Eigen.map_cols P = 1 ∧
    StrategyRef.call witness_buffer r 0 [float_of_Z 1; float_of_Z 1] = None ∧
    Strategy.make 1 2 1 = Some s ∧
    Strategy.Ps s !! 0%nat = Some Q ∧
    Eigen.rows Q = 1 ∧ Eigen.cols Q = 2.
Proof.
  exists (layout 0 2 1 1), (Eigen.mkMap 0 2 1),
         (zero_strategy 1 2 1), (zero_gain 2 1).
  repeat split; vm_compute; reflexivity.
Qed.

(** What does hold of the shapes: every strategy object has [horizon] gains
    and feedforward terms; the gains of [Strategy(horizon, xdim, udim)] are
    [udim x xdim] and its feedforward terms have size [udim]; the gains of a
    [StrategyRef] are [xdim x udim] and its feedforward terms have size
    [udim]. *)
Lemma strategy_shapes horizon xdim udim primals initial_idx :
  is_size_t horizon → is_size_t initial_idx → is_int xdim → is_int udim →
  (∀ s, Strategy.make horizon xdim udim = Some s →
     length (Strategy.Ps s) = Z.to_nat horizon ∧
     length (Strategy.alphas s) = Z.to_nat horizon ∧
     ∀ t : nat, Z.of_nat t < horizon →
       ∃ P a, Strategy.Ps s !! t = Some P ∧ Strategy.alphas s !! t = Some a ∧
              Eigen.rows P = udim ∧ Eigen.cols P = xdim ∧ Z.of_nat (length a) = udim) ∧
  (∀ r, StrategyRef.make horizon xdim udim primals initial_idx = Some r →
     length (StrategyRef.Ps r) = Z.to_nat horizon ∧
     length (StrategyRef.alphas r) = Z.to_nat horizon ∧
     ∀ t : nat, Z.of_nat t < horizon →
       ∃ P a, StrategyRef.Ps r !! t = Some P ∧ StrategyRef.alphas r !! t = Some a ∧
              Eigen.map_rows P = xdim ∧ Eigen.map_cols P = udim ∧
              Eigen.ref_size a = udim).
Proof.
  intros Hh Hi Hx Hu. split.
  - intros s Hs. apply Strategy_make_Some in Hs as [-> Hdims]. simpl.
    rewrite !length_replicate. repeat split. intros t Ht.
    destruct Hdims as [Hx0 Hu0]; [lia|].
    exists (zero_gain xdim udim), (zero_feedforward udim).
    rewrite !lookup_replicate_2 by lia. unfold zero_feedforward.
    rewrite length_replicate. repeat split; simpl; lia.
  - intros r Hr. apply StrategyRef_make_Some in Hr as [-> _]; try done.
    destruct (layout_lengths initial_idx xdim udim (Z.to_nat horizon)) as [HP Ha].
    repeat split; try done. intros t Ht.
    destruct (layout_lookup initial_idx xdim udim (Z.to_nat horizon) t) as [HPt Hat];
      [lia|].
    eexists _, _. split; [exact HPt|]. split; [exact Hat|]. done.
Qed.

(** ** The initial state and strategies of the example *)

(** The strategies that the example starts from are zero strategies over 20
    time steps. *)
Lemma initial_strategy_zero XDim udim :
  0 ≤ XDim → 0 ≤ udim →
  OnePlayerReachabilityExample.initial_strategy XDim udim
  = Some (zero_strategy 20 XDim udim).
Proof.
  intros HX Hu. unfold OnePlayerReachabilityExample.initial_strategy.
  replace OnePlayerReachabilityExample.kNumTimeSteps with (Some 20)
    by (vm_compute; reflexivity).
  simpl. by rewrite Strategy_make_total.
Qed.

Lemma set_coeff_in_range x i v :
  0 ≤ i < Z.of_nat (length x) →
  OnePlayerReachabilityExample.set_coeff x i v = Some (<[Z.to_nat i := v]> x).
Proof.
  intros. unfold OnePlayerReachabilityExample.set_coeff. by rewrite decide_True.
Qed.

Lemma get_coeff_insert_eq (x : list float) i v :
  0 ≤ i < Z.of_nat (length x) →
  OnePlayerReachabilityExample.get_coeff (<[Z.to_nat i := v]> x) i = Some v.
Proof.
  intros Hi. unfold OnePlayerReachabilityExample.get_coeff.
  rewrite decide_True by lia. apply list_lookup_insert_eq. lia.
Qed.

Lemma get_coeff_insert_ne (x : list float) i j v :
  0 ≤ i → 0 ≤ j → i ≠ j →
  OnePlayerReachabilityExample.get_coeff (<[Z.to_nat i := v]> x) j
  = OnePlayerReachabilityExample.get_coeff x j.
Proof.
  intros Hi Hj Hne. unfold OnePlayerReachabilityExample.get_coeff.
  rewrite !decide_True by lia. apply list_lookup_insert_ne. lia.
Qed.

(** C7.  The example is configured as the scenario says.  The [float]
    quotient [kTimeHorizon / kTimeStep] of [2.0f] by the [float] nearest to
    [0.1] is exactly [20.0f], so [kNumTimeSteps] is [20].  For any state
    layout with four distinct positions inside the state vector, the initial
    state is built and holds [2.0] at the x and y positions, the [float]
    nearest to [-M_PI] (which lies between [-3.141593] and [-3.141592]) at
    the theta position and [0.0] at the omega position.  The goal is drawn
    around [(0.0, 0.0)] with radius [0.5]. *)
Theorem reachability_example_configuration XDim kPxIdx kPyIdx kThetaIdx kOmegaIdx :
  0 ≤ kPxIdx < XDim → 0 ≤ kPyIdx < XDim →
  0 ≤ kThetaIdx < XDim → 0 ≤ kOmegaIdx < XDim →
  kPxIdx ≠ kPyIdx → kPxIdx ≠ kThetaIdx → kPxIdx ≠ kOmegaIdx →
  kPyIdx ≠ kThetaIdx → kPyIdx ≠ kOmegaIdx → kThetaIdx ≠ kOmegaIdx →
  (OnePlayerReachabilityExample.kTimeHorizon = float_of_Z 2 ∧
   OnePlayerReachabilityExample.kTimeStep = S754_finite false 13421773 (-27) ∧
   fdiv OnePlayerReachabilityExample.kTimeHorizon OnePlayerReachabilityExample.kTimeStep
     = float_of_Z 20 ∧
   OnePlayerReachabilityExample.kNumTimeSteps = Some 20) ∧
  (∃ x0,
     OnePlayerReachabilityExample.x0_ XDim kPxIdx kPyIdx kThetaIdx kOmegaIdx = Some x0 ∧
     Z.of_nat (length x0) = XDim ∧
     OnePlayerReachabilityExample.get_coeff x0 kPxIdx = Some (float_of_Z 2) ∧
     OnePlayerReachabilityExample.get_coeff x0 kPyIdx = Some (float_of_Z 2) ∧
     OnePlayerReachabilityExample.get_coeff x0 kThetaIdx
       = Some OnePlayerReachabilityExample.kP1InitialTheta ∧
     OnePlayerReachabilityExample.get_coeff x0 kOmegaIdx = Some fzero) ∧
  (OnePlayerReachabilityExample.kP1InitialTheta = fopp (float_of_double M_PI) ∧
   flt (float_of_double (SFopp (double_literal 3141593 6)))
       OnePlayerReachabilityExample.kP1InitialTheta = true ∧
   flt OnePlayerReachabilityExample.kP1InitialTheta
       (float_of_double (SFopp (double_literal 3141592 6))) = true) ∧
  (OnePlayerReachabilityExample.goal_circle
     = ((fzero, fzero), OnePlayerReachabilityExample.kTargetRadius, 10) ∧
   fadd OnePlayerReachabilityExample.kTargetRadius
        OnePlayerReachabilityExample.kTargetRadius = float_of_Z 1).
Proof.
  intros Hx Hy Ht Ho Hxy Hxt Hxo Hyt Hyo Hto.
  split; [repeat split; vm_compute; reflexivity|].
  split; [|split; repeat split; vm_compute; reflexivity].
  unfold OnePlayerReachabilityExample.x0_,
    OnePlayerReachabilityExample.kP1XIdx, OnePlayerReachabilityExample.kP1YIdx,
    OnePlayerReachabilityExample.kP1ThetaIdx, OnePlayerReachabilityExample.kP1OmegaIdx.
  rewrite ZeroVector_total by lia. simpl.
  set (z := replicate (Z.to_nat XDim) fzero).
  assert (Hz : Z.of_nat (length z) = XDim).
  { unfold z. rewrite length_replicate. lia. }
  rewrite set_coeff_in_range by lia. simpl.
  rewrite set_coeff_in_range by (rewrite !length_insert; lia). simpl.
  rewrite set_coeff_in_range by (rewrite !length_insert; lia). simpl.
  rewrite set_coeff_in_range by (rewrite !length_insert; lia).
  eexists. split; [done|]. split; [by rewrite !length_insert|].
  repeat split.
  - rewrite !get_coeff_insert_ne by lia.
    by rewrite get_coeff_insert_eq by lia.
  - rewrite !get_coeff_insert_ne by lia.
    by rewrite get_coeff_insert_eq by (rewrite !length_insert; lia).
  - rewrite !get_coeff_insert_ne by lia.
    by rewrite get_coeff_insert_eq by (rewrite !length_insert; lia).
  - by rewrite get_coeff_insert_eq by (rewrite !length_insert; lia).
Qed.

Lemma reachability_example_configuration_witness :
  OnePlayerReachabilityExample.kNumTimeSteps = Some 20 ∧
  ∃ x0, OnePlayerReachabilityExample.x0_ 4 0 1 2 3 = Some x0 ∧
        OnePlayerReachabilityExample.get_coeff x0 2
          = Some OnePlayerReachabilityExample.kP1InitialTheta.
Proof.
  destruct (reachability_example_configuration 4 0 1 2 3)
    as ((_ & _ & _ & Hsteps) & (x0 & Hx0 & _ & _ & _ & Htheta & _) & _);
    [by_evaluation..|].
  split; [exact Hsteps|]. exists x0. split; [exact Hx0|exact Htheta].
Defined.

(** ** [sgn] *)

Lemma pow2_split w : 1 ≤ w → 2 ^ w = 2 * 2 ^ (w - 1) ∧ 0 < 2 ^ (w - 1).
Proof.
  intros Hw. split.
  - rewrite <- Z.pow_succ_r by lia. f_equal. lia.
  - apply Z.pow_pos_nonneg; lia.
Qed.

Lemma wrap_signed_id w z :
  1 ≤ w → - 2 ^ (w - 1) ≤ z < 2 ^ (w - 1) → wrap_signed w z = z.
Proof.
  intros Hw Hz. destruct (pow2_split w Hw) as [Hpow Hpos].
  unfold wrap_signed. rewrite Z.mod_small by lia. lia.
Qed.

(** C10.  [sgn(x)] is [1] for [x > 0], [-1] for [x < 0] and [0] for
    [x == 0] on the signed types (the signed integers of at least 2 bits,
    [float] and [double]; a NaN, which is in none of the three cases, gives
    [0]), and [1] for [x > 0] and [0] for [x == 0] on the unsigned
    integers. *)
Theorem sgn_values (w : Z) (i u : Z) (f : float) (d : spec_float) :
  (2 ≤ w → - 2 ^ (w - 1) ≤ i < 2 ^ (w - 1) →
     (0 < i → @sgn Z (signed_int w) i = 1) ∧
     (i < 0 → @sgn Z (signed_int w) i = -1) ∧
     (i = 0 → @sgn Z (signed_int w) i = 0)) ∧
  (1 ≤ w → 0 ≤ u < 2 ^ w →
     (0 < u → @sgn Z (unsigned_int w) u = 1) ∧
     (u = 0 → @sgn Z (unsigned_int w) u = 0)) ∧
  ((flt fzero f = true → @sgn float float_arith f = float_of_Z 1) ∧
   (flt f fzero = true → @sgn float float_arith f = float_of_Z (-1)) ∧
   (feqb f fzero = true → @sgn float float_arith f = float_of_Z 0)) ∧
  ((SFltb (S754_zero false) d = true
      → @sgn spec_float double_arith d = binary_normalize 53 1024 1 0 false) ∧
   (SFltb d (S754_zero false) = true
      → @sgn spec_float double_arith d = binary_normalize 53 1024 (-1) 0 false) ∧
   (SFeqb d (S754_zero false) = true
      → @sgn spec_float double_arith d = S754_zero false)).
Proof.
  split; [|split; [|split]].
  - intros Hw Hi. destruct (pow2_split w ltac:(lia)) as [Hpow Hpos].
    destruct (pow2_split (w - 1) ltac:(lia)) as [Hpow' Hpos'].
    unfold sgn, sgn_signed; simpl.
    rewrite (wrap_signed_id w 0) by lia.
    repeat split; intros Hcase.
    + rewrite (proj2 (Z.ltb_lt 0 i)), (proj2 (Z.ltb_ge i 0)) by lia. simpl.
      apply wrap_signed_id; lia.
    + rewrite (proj2 (Z.ltb_ge 0 i)), (proj2 (Z.ltb_lt i 0)) by lia. simpl.
      apply wrap_signed_id; lia.
    + subst i. simpl. apply wrap_signed_id; lia.
  - intros Hw Hu. destruct (pow2_split w Hw) as [Hpow Hpos].
    unfold sgn, sgn_unsigned; simpl.
    rewrite (Z.mod_small 0) by lia.
    repeat split; intros Hcase.
    + rewrite (proj2 (Z.ltb_lt 0 u)) by lia. simpl. apply Z.mod_small. lia.
    + subst u. simpl. apply Z.mod_small. lia.
  - destruct f as [[]|[]| |[] m e]; repeat split; intros Hcase;
      try discriminate Hcase; reflexivity.
  - destruct d as [[]|[]| |[] m e]; repeat split; intros Hcase;
      try discriminate Hcase; reflexivity.
Qed.

Lemma sgn_values_witness :
  @sgn Z (signed_int 32) (-5) = -1 ∧ @sgn Z (unsigned_int 8) 200 = 1.
Proof.
  destruct (sgn_values 32 (-5) 0 fzero fzero) as (Hsigned & _).
  destruct (sgn_values 8 0 200 fzero fzero) as (_ & Hunsigned & _).
  split.
  - apply Hsigned; by_evaluation.
  - apply Hunsigned; by_evaluation.
Defined.

(** * Further properties of the code *)

(** ** [Strategy::operator()] *)

(** What a returning call has used and what it returns. *)
Lemma Strategy_call_Some s t delta_x u_ref r :
  Strategy.call s t delta_x u_ref = Some r →
  ∃ P a, Strategy.Ps s !! t = Some P ∧ Strategy.alphas s !! t = Some a ∧
    Eigen.cols P = Z.of_nat (length delta_x) ∧
    length u_ref = Z.to_nat (Eigen.rows P) ∧ length a = length u_ref ∧
    length r = length u_ref ∧
    ∀ j uj aj, u_ref !! j = Some uj → a !! j = Some aj →
      r !! j = Some (fsub (fsub uj (Eigen.row_dot P j delta_x)) aj).
Proof.
  unfold Strategy.call. intros Hcall.
  destruct (Strategy.Ps s !! t) as [P|] eqn:HP; simpl in Hcall; [|done].
  destruct (Eigen.mat_vec P delta_x) as [Pdx|] eqn:HPdx; simpl in Hcall; [|done].
  destruct (Eigen.vsub u_ref Pdx) as [d|] eqn:Hd; simpl in Hcall; [|done].
  destruct (Strategy.alphas s !! t) as [a|] eqn:Ha; simpl in Hcall; [|done].
  exists P, a.
  destruct (mat_vec_Some _ _ _ HPdx) as [Hcols _].
  pose proof (length_mat_vec _ _ _ HPdx) as HlPdx.
  destruct (cwise_Some _ _ _ _ Hd) as [Hlu _].
  pose proof (length_cwise _ _ _ _ Hd) as Hld.
  destruct (cwise_Some _ _ _ _ Hcall) as [Hla _].
  pose proof (length_cwise _ _ _ _ Hcall) as Hlr.
  repeat split; try done; try congruence.
  intros j uj aj Huj Haj.
  apply (lookup_cwise _ _ _ _ j (fsub uj (Eigen.row_dot P j delta_x)) aj Hcall); [|done].
  apply (lookup_cwise _ _ _ _ j uj (Eigen.row_dot P j delta_x) Hd); [done|].
  apply (lookup_mat_vec _ _ _ _ HPdx). apply lookup_lt_Some in Huj. lia.
Qed.

Lemma Strategy_call_total s t P a delta_x u_ref :
  Strategy.Ps s !! t = Some P → Strategy.alphas s !! t = Some a →
  Eigen.cols P = Z.of_nat (length delta_x) →
  length u_ref = Z.to_nat (Eigen.rows P) → length a = length u_ref →
  is_Some (Strategy.call s t delta_x u_ref).
Proof.
  intros HP Ha Hcols Hrows Hlen. unfold Strategy.call.
  rewrite HP, Ha; simpl. rewrite mat_vec_total by done; simpl.
  unfold Eigen.vsub.
  rewrite cwise_total by (by rewrite length_fmap, length_seq); simpl.
  rewrite cwise_total; [done|].
  rewrite length_zip_with, length_fmap, length_seq. lia.
Qed.

(** X1.  [Strategy::operator()(t, delta_x, u_ref)] returns a control exactly
    when [t] is a time step of the strategy, the gain at [t] has as many
    columns as [delta_x] has coefficients and as many rows as [u_ref] has,
    and the feedforward term at [t] has the size of [u_ref]; any other call
    (a time step past the horizon, a size that does not match) is undefined.
    A returned control has the size of [u_ref]. *)
Theorem strategy_call_defined s t delta_x u_ref :
  (is_Some (Strategy.call s t delta_x u_ref) ↔
   ∃ P a, Strategy.Ps s !! t = Some P ∧ Strategy.alphas s !! t = Some a ∧
     Eigen.cols P = Z.of_nat (length delta_x) ∧
     length u_ref = Z.to_nat (Eigen.rows P) ∧ length a = length u_ref) ∧
  ((length (Strategy.Ps s) ≤ t)%nat → Strategy.call s t delta_x u_ref = None) ∧
  (∀ r, Strategy.call s t delta_x u_ref = Some r → length r = length u_ref).
Proof.
  split; [split|split].
  - intros [r Hr].
    destruct (Strategy_call_Some _ _ _ _ _ Hr) as (P & a & ? & ? & ? & ? & ? & _).
    by exists P, a.
  - intros (P & a & HP & Ha & Hcols & Hrows & Hlen).
    by eapply Strategy_call_total.
  - intros Ht. unfold Strategy.call.
    by rewrite (lookup_ge_None_2 (Strategy.Ps s) t Ht).
  - intros r Hr.
    by destruct (Strategy_call_Some _ _ _ _ _ Hr) as (P & a & _ & _ & _ & _ & _ & ? & _).
Qed.

Lemma strategy_call_defined_witness :
  Strategy.call (zero_strategy 2 2 1) 2 [fzero; fzero] [fzero] = None ∧
  Strategy.call (zero_strategy 2 2 1) 1 [fzero] [fzero] = None.
Proof.
  destruct (strategy_call_defined (zero_strategy 2 2 1) 2 [fzero; fzero] [fzero])
    as (_ & Hrange & _).
  destruct (strategy_call_defined (zero_strategy 2 2 1) 1 [fzero] [fzero])
    as (Hiff & _ & _).
  split; [apply Hrange; by_evaluation|].
  destruct (Strategy.call (zero_strategy 2 2 1) 1 [fzero] [fzero]) as [r|] eqn:Hr;
    [|reflexivity].
  destruct (proj1 Hiff (ex_intro _ r eq_refl)) as (P & a & HP & _ & Hcols & _).
  vm_compute in HP. injection HP as <-. vm_compute in Hcols. discriminate Hcols.
Defined.

(** ** Zero deviation *)

Lemma fmul_finite_zero c :
  is_finite c = true → ∃ s, fmul c fzero = S754_zero s.
Proof. destruct c as [s|s| |s m e]; simpl; intros Hfin; try done; by eexists. Qed.

(** A row of a matrix with finite coefficients times the zero vector. *)
Lemma row_dot_zeros M i n :
  Forall (λ c, is_finite c = true) (Eigen.coeffs M) →
  Eigen.row_dot M i (replicate n fzero) = fzero.
Proof.
  intros Hfin. unfold Eigen.row_dot. generalize 0%nat as j.
  induction n as [|n IH]; intros j; cbn [replicate Eigen.dot_from]; [done|].
  assert (Hc : is_finite (Eigen.coeff M i j) = true).
  { unfold Eigen.coeff.
    destruct (Eigen.coeffs M !! _) as [c|] eqn:Hlook; simpl; [|done].
    eapply Forall_lookup_1 in Hfin; [exact Hfin|exact Hlook]. }
  destruct (fmul_finite_zero _ Hc) as [s ->].
  rewrite fadd_zero_zero. apply IH.
Qed.

(** X2.  At zero deviation from the nominal state, a strategy whose gain at
    [t] has finite coefficients returns the reference control minus the
    feedforward term: coefficient [j] of
    [operator()(t, 0, u_ref)] is [u_ref[j] - alphas[t][j]]. *)
Theorem strategy_call_zero_deviation s t P a u_ref :
  Strategy.Ps s !! t = Some P → Strategy.alphas s !! t = Some a →
  0 ≤ Eigen.cols P → Eigen.rows P = Z.of_nat (length u_ref) →
  length a = length u_ref →
  Forall (λ c, is_finite c = true) (Eigen.coeffs P) →
  Strategy.call s t (replicate (Z.to_nat (Eigen.cols P)) fzero) u_ref
  = Some (zip_with fsub u_ref a).
Proof.
  intros HP Ha Hcols Hrows Hlen Hfin. unfold Strategy.call.
  rewrite HP, Ha; simpl.
  rewrite mat_vec_total by (rewrite length_replicate; lia); simpl.
  assert (HPdx : (λ i, Eigen.row_dot P i (replicate (Z.to_nat (Eigen.cols P)) fzero))
                   <$> seq 0 (Z.to_nat (Eigen.rows P))
                 = replicate (length u_ref) fzero).
  { rewrite Hrows, Nat2Z.id. clear -Hfin.
    generalize (length u_ref) as n. intros n. generalize 0%nat as start.
    induction n as [|n IH]; intros start; [done|].
    cbn [seq fmap list_fmap replicate].
    rewrite row_dot_zeros by done. f_equal. apply IH. }
  rewrite HPdx. unfold Eigen.vsub.
  rewrite cwise_total by (by rewrite length_replicate); simpl.
  rewrite zip_with_fsub_zeros by done.
  by rewrite cwise_total.
Qed.

Lemma strategy_call_zero_deviation_witness :
  Strategy.call (Strategy.mk [Eigen.mkMatrix 1 2 [float_of_Z 2; float_of_Z 3]]
                             [[float_of_Z 6]])
    0 [fzero; fzero] [float_of_Z 5] = Some [float_of_Z (-1)].
Proof.
  exact (strategy_call_zero_deviation
           (Strategy.mk [Eigen.mkMatrix 1 2 [float_of_Z 2; float_of_Z 3]]
                        [[float_of_Z 6]])
           0 (Eigen.mkMatrix 1 2 [float_of_Z 2; float_of_Z 3]) [float_of_Z 6]
           [float_of_Z 5] eq_refl eq_refl ltac:(by_evaluation) eq_refl eq_refl
           ltac:(repeat constructor)).
Defined.

(** ** [StrategyRef::operator()] *)

Lemma read_range_total buffer start n :
  0 ≤ start → 0 ≤ n → start + n ≤ Z.of_nat (length buffer) →
  Eigen.read_range buffer start n
  = Some (take (Z.to_nat n) (drop (Z.to_nat start) buffer)).
Proof. intros. unfold Eigen.read_range. by rewrite decide_True. Qed.

(** What a returning call has read and what it returns. *)
Lemma StrategyRef_call_Some primals r t x u :
  StrategyRef.call primals r t x = Some u →
  ∃ mP P ra a,
    StrategyRef.Ps r !! t = Some mP ∧ Eigen.read_map primals mP = Some P ∧
    StrategyRef.alphas r !! t = Some ra ∧ Eigen.read_ref primals ra = Some a ∧
    Eigen.cols P = Z.of_nat (length x) ∧ length a = Z.to_nat (Eigen.rows P) ∧
    length u = length a ∧
    ∀ j aj, a !! j = Some aj →
      u !! j = Some (fsub (Eigen.row_dot (Eigen.mopp P) j x) aj).
Proof.
  unfold StrategyRef.call. intros Hcall.
  destruct (StrategyRef.Ps r !! t) as [mP|] eqn:HmP; simpl in Hcall; [|done].
  destruct (Eigen.read_map primals mP) as [P|] eqn:HP; simpl in Hcall; [|done].
  destruct (Eigen.mat_vec (Eigen.mopp P) x) as [Px|] eqn:HPx; simpl in Hcall; [|done].
  destruct (StrategyRef.alphas r !! t) as [ra|] eqn:Hra; simpl in Hcall; [|done].
  destruct (Eigen.read_ref primals ra) as [a|] eqn:Ha; simpl in Hcall; [|done].
  exists mP, P, ra, a.
  destruct (mat_vec_Some _ _ _ HPx) as [Hcols _].
  pose proof (length_mat_vec _ _ _ HPx) as HlPx.
  destruct (cwise_Some _ _ _ _ Hcall) as [Hla _].
  pose proof (length_cwise _ _ _ _ Hcall) as Hlu.
  simpl in *. repeat split; try done; try congruence.
  intros j aj Haj.
  apply (lookup_cwise _ _ _ _ j (Eigen.row_dot (Eigen.mopp P) j x) aj Hcall); [|done].
  apply (lookup_mat_vec _ _ _ _ HPx). simpl. apply lookup_lt_Some in Haj. lia.
Qed.

(** X3.  [StrategyRef::operator()(t, x)], when it returns, returns
    [-Ps[t] * x - alphas[t]] read through the views: a vector of the size of
    [alphas[t]] whose coefficient [j] is
    [(row j of -Ps[t]) * x - alphas[t][j]]; for that the gain must have as
    many columns as [x] has coefficients and as many rows as [alphas[t]] has
    coefficients. *)
Theorem strategy_ref_call_law primals r t x u mP P ra a :
  StrategyRef.call primals r t x = Some u →
  StrategyRef.Ps r !! t = Some mP → Eigen.read_map primals mP = Some P →
  StrategyRef.alphas r !! t = Some ra → Eigen.read_ref primals ra = Some a →
  Eigen.cols P = Z.of_nat (length x) ∧ length a = Z.to_nat (Eigen.rows P) ∧
  length u = length a ∧
  ∀ j aj, a !! j = Some aj →
    u !! j = Some (fsub (Eigen.row_dot (Eigen.mopp P) j x) aj).
Proof.
  intros Hcall HmP HP Hra Ha.
  destruct (StrategyRef_call_Some _ _ _ _ _ Hcall)
    as (mP' & P' & ra' & a' & HmP' & HP' & Hra' & Ha' & Hrest).
  by simplify_eq.
Qed.

Lemma strategy_ref_call_law_witness :
  ∃ u, StrategyRef.call witness_buffer (layout 0 1 1 2) 1 [float_of_Z 5] = Some u ∧
       u !! 0%nat = Some (float_of_Z (-19)).
Proof.
  destruct (StrategyRef.call witness_buffer (layout 0 1 1 2) 1 [float_of_Z 5])
    as [u|] eqn:Hu; [|vm_compute in Hu; discriminate Hu].
  exists u. split; [reflexivity|].
  destruct (strategy_ref_call_law witness_buffer (layout 0 1 1 2) 1 [float_of_Z 5] u
              (Eigen.mkMap 2 1 1) (Eigen.mkMatrix 1 1 [float_of_Z 3])
              (Eigen.mkRef 3 1) [float_of_Z 4] Hu)
    as (_ & _ & _ & Hj); [vm_compute; reflexivity..|].
  rewrite (Hj 0%nat (float_of_Z 4) eq_refl). vm_compute. reflexivity.
Defined.

(** The views of a layout that lies inside the buffer can be read. *)
Lemma layout_reads primals initial_idx xdim udim n (t : nat) :
  0 ≤ initial_idx → 0 ≤ xdim → 0 ≤ udim → (t < n)%nat →
  initial_idx + Z.of_nat n * stride xdim udim ≤ Z.of_nat (length primals) →
  ∃ P a,
    Eigen.read_map primals (P_view initial_idx xdim udim t) = Some P ∧
    Eigen.read_ref primals (alpha_view initial_idx xdim udim t) = Some a ∧
    Eigen.rows P = xdim ∧ Eigen.cols P = udim ∧ Z.of_nat (length a) = udim.
Proof.
  intros Hi Hx Hu Ht Hfit.
  assert (Hstride : stride xdim udim = xdim * udim + udim) by done.
  assert (Hnext : initial_idx + (Z.of_nat t + 1) * stride xdim udim
                  ≤ Z.of_nat (length primals)) by nia.
  unfold Eigen.read_map, Eigen.read_ref, P_view, alpha_view, Eigen.map_size; simpl.
  rewrite decide_True by lia.
  rewrite !read_range_total by nia. simpl.
  eexists _, _. split; [done|]. split; [done|]. simpl.
  rewrite length_take, length_drop. repeat split; nia.
Qed.

(** X4.  On a view built by [StrategyRef(h, xdim, udim, primals,
    initial_idx)], whose gains are [xdim x udim],
    [operator()(t, x)] at a time step [t < h] returns a control exactly when
    [x] has [udim] coefficients and [xdim = udim]: with a state of [xdim]
    coefficients it is defined only for systems with as many controls as
    states. *)
Theorem strategy_ref_call_defined horizon xdim udim primals initial_idx r (t : nat) x :
  is_size_t horizon → is_size_t initial_idx → is_int xdim → is_int udim →
  StrategyRef.make horizon xdim udim primals initial_idx = Some r →
  Z.of_nat t < horizon →
  (is_Some (StrategyRef.call primals r t x)
   ↔ Z.of_nat (length x) = udim ∧ xdim = udim).
Proof.
  intros Hh Hi Hx Hu Hmake Ht.
  apply StrategyRef_make_Some in Hmake as [-> Hpos]; try done.
  destruct Hpos as (Hx0 & Hu0 & _ & _ & Hfit & _); [lia|].
  destruct (layout_lookup initial_idx xdim udim (Z.to_nat horizon) t) as [HPt Hat];
    [lia|].
  destruct (layout_reads primals initial_idx xdim udim (Z.to_nat horizon) t)
    as (P & a & HP & Ha & Hrows & Hcols & Hlen);
    [unfold is_size_t in Hi; lia|done|done|lia|done|].
  split.
  - intros [u Hcall].
    destruct (StrategyRef_call_Some _ _ _ _ _ Hcall)
      as (mP' & P' & ra' & a' & HmP' & HP' & Hra' & Ha' & Hc & Hr & _).
    simplify_eq. split; lia.
  - intros [Hlx ->]. unfold StrategyRef.call.
    rewrite HPt, Hat; simpl. rewrite HP, Ha; simpl.
    rewrite mat_vec_total by (simpl; lia); simpl.
    unfold Eigen.vsub. rewrite cwise_total; [done|].
    rewrite length_fmap, length_seq. simpl. lia.
Qed.

Lemma strategy_ref_call_defined_witness :
  StrategyRef.call witness_buffer (layout 0 2 1 2) 0 [float_of_Z 1; float_of_Z 1]
  = None.
Proof.
  assert (H2 : is_size_t 2) by by_evaluation.
  assert (H0 : is_size_t 0) by by_evaluation.
  assert (Hx : is_int 2) by by_evaluation.
  assert (Hu : is_int 1) by by_evaluation.
  destruct (StrategyRef.call witness_buffer (layout 0 2 1 2) 0
              [float_of_Z 1; float_of_Z 1]) as [u|] eqn:Hcall; [|reflexivity].
  destruct (proj1 (strategy_ref_call_defined 2 2 1 witness_buffer 0 (layout 0 2 1 2)
                     0 [float_of_Z 1; float_of_Z 1] H2 H0 Hx Hu
                     ltac:(vm_compute; reflexivity) ltac:(by_evaluation))
                  (ex_intro _ u Hcall)) as [_ Heq].
  discriminate Heq.
Defined.

(** X5.  A [Strategy] can be built from a view that [StrategyRef(h, xdim,
    udim, ...)] built over at least one time step only if [xdim = udim]:
    the [xdim x udim] gain times the nominal state has [xdim] coefficients
    and is subtracted from a vector of [udim] coefficients. *)
Theorem strategy_from_built_ref_square horizon xdim udim primals initial_idx r op i s :
  is_size_t horizon → is_size_t initial_idx → is_int xdim → is_int udim →
  1 ≤ horizon →
  StrategyRef.make horizon xdim udim primals initial_idx = Some r →
  Strategy.from_ref primals r op i = Some s →
  xdim = udim.
Proof.
  intros Hh Hi Hx Hu Hpos Hmake Hs.
  apply StrategyRef_make_Some in Hmake as [-> Hfacts]; try done.
  destruct Hfacts as (Hx0 & Hu0 & _ & _ & Hfit & _); [lia|].
  apply Strategy_from_ref_Some in Hs as (_ & _ & Hdone & _).
  destruct (layout_lengths initial_idx xdim udim (Z.to_nat horizon)) as [HlP _].
  destruct (Hdone 0%nat) as (P & a & u & x & rr & Hreads & Hr & _); [lia|].
  destruct Hreads as ((mP & HmP & HP) & (ra & Hra & Ha) & _).
  destruct (layout_lookup initial_idx xdim udim (Z.to_nat horizon) 0) as [HPt Hat];
    [lia|].
  destruct (layout_reads primals initial_idx xdim udim (Z.to_nat horizon) 0)
    as (P' & a' & HP' & Ha' & Hrows & Hcols & Hlen);
    [unfold is_size_t in Hi; lia|done|done|lia|done|].
  rewrite HPt in HmP. injection HmP as <-. rewrite HP' in HP. injection HP as <-.
  rewrite Hat in Hra. injection Hra as <-. rewrite Ha' in Ha. injection Ha as <-.
  unfold shifted_alpha in Hr.
  destruct (Eigen.vadd a' u) as [au|] eqn:Hau; simpl in Hr; [|done].
  destruct (Eigen.mat_vec P' x) as [Px|] eqn:HPx; simpl in Hr; [|done].
  pose proof (length_cwise _ _ _ _ Hau) as Hlau.
  destruct (cwise_Some _ _ _ _ Hr) as [HlPx _].
  pose proof (length_mat_vec _ _ _ HPx) as Hrows'.
  lia.
Qed.

Lemma strategy_from_built_ref_square_witness :
  Strategy.from_ref witness_buffer (layout 0 2 1 2)
    (mkOperatingPointRef [[float_of_Z 1]; [float_of_Z 1]]
                         [[[float_of_Z 0]]; [[float_of_Z 0]]]) 0 = None.
Proof.
  assert (H2 : is_size_t 2) by by_evaluation.
  assert (H0 : is_size_t 0) by by_evaluation.
  assert (Hx : is_int 2) by by_evaluation.
  assert (Hu : is_int 1) by by_evaluation.
  destruct (Strategy.from_ref witness_buffer (layout 0 2 1 2)
    (mkOperatingPointRef [[float_of_Z 1]; [float_of_Z 1]]
                         [[[float_of_Z 0]]; [[float_of_Z 0]]]) 0) as [s|] eqn:Hs;
    [|reflexivity].
  pose proof (strategy_from_built_ref_square 2 2 1 witness_buffer 0 (layout 0 2 1 2)
                _ 0%nat s H2 H0 Hx Hu ltac:(by_evaluation)
                ltac:(vm_compute; reflexivity) Hs) as Heq.
  discriminate Heq.
Defined.

(** ** The part of the primal buffer that a view depends on *)





(** X7.  Two views laid out back to back do not overlap: when a second
    [StrategyRef] is built over the same buffer from the position
    [initial_idx + NumVariables()] of a first one, no position of the buffer
    is seen through both. *)
Theorem strategy_refs_back_to_back
    horizon1 xdim1 udim1 horizon2 xdim2 udim2 primals initial_idx r1 r2 count :
  is_size_t horizon1 → is_size_t horizon2 → is_size_t initial_idx →
  is_int xdim1 → is_int udim1 → is_int xdim2 → is_int udim2 →
  StrategyRef.make horizon1 xdim1 udim1 primals initial_idx = Some r1 →
  StrategyRef.NumVariables r1 = Returns count →
  StrategyRef.make horizon2 xdim2 udim2 primals (initial_idx + count) = Some r2 →
  ∀ ρ1 ρ2 p, ρ1 ∈ ranges r1 → ρ2 ∈ ranges r2 →
    ¬ (in_range p ρ1 ∧ in_range p ρ2).
Proof.
  intros Hh1 Hh2 Hi Hx1 Hu1 Hx2 Hu2 Hr1 Hnum Hr2 ρ1 ρ2 p Hρ1 Hρ2 [Hp1 Hp2].
  assert (Hpos1 : 0 < horizon1).
  { destruct (proj1 (StrategyRef_NumVariables_Returns r1) (ex_intro _ count Hnum))
      as [Hne _].
    apply StrategyRef_make_Some in Hr1 as [-> _]; try done.
    destruct (layout_lengths initial_idx xdim1 udim1 (Z.to_nat horizon1)) as [HlP _].
    destruct (Z.to_nat horizon1) eqn:Hz; [|lia].
    by destruct Hne. }
  destruct (strategy_ref_layout_facts _ _ _ _ _ _ Hh1 Hi Hx1 Hu1 Hr1) as [_ Hnum'].
  rewrite (Hnum' Hpos1) in Hnum. injection Hnum as <-.
  apply StrategyRef_make_Some in Hr1 as [-> Hf1]; try done.
  destruct Hf1 as (Hx10 & Hu10 & _ & _ & Hfit1 & Hsmall1); [lia|].
  assert (Hn1 : Z.of_nat (Z.to_nat horizon1) = horizon1) by lia.
  rewrite Hn1 in *. unfold stride in Hfit1, Hsmall1.
  assert (Hi2 : is_size_t (initial_idx + horizon1 * (xdim1 * udim1 + udim1))).
  { unfold is_size_t, SIZE_MAX in *. nia. }
  apply StrategyRef_make_Some in Hr2 as [-> Hf2]; try done.
  apply list_elem_of_lookup in Hρ1 as [k1 Hk1].
  apply list_elem_of_lookup in Hρ2 as [k2 Hk2].
  destruct (decide (Z.to_nat horizon2 = 0)%nat) as [Hz|Hnz].
  { rewrite Hz in Hk2. done. }
  destruct Hf2 as (Hx20 & Hu20 & _); [lia|].
  pose proof (layout_chained initial_idx xdim1 udim1 (Z.to_nat horizon1) Hx10 Hu10)
    as Hc1.
  pose proof (layout_chained (initial_idx + horizon1 * (xdim1 * udim1 + udim1))
                xdim2 udim2 (Z.to_nat horizon2) Hx20 Hu20) as Hc2.
  rewrite Hn1 in Hc1. unfold stride in Hc1 at 1.
  destruct (chained_lookup _ _ _ _ _ Hc1 Hk1) as (_ & _ & Hend1).
  destruct (chained_lookup _ _ _ _ _ Hc2 Hk2) as (Hstart2 & _ & _).
  unfold in_range in *. lia.
Qed.

Lemma strategy_refs_back_to_back_witness :
  ¬ (in_range 3 (1, 2) ∧ in_range 3 (4, 2)).
Proof.
  assert (H1 : is_size_t 1) by by_evaluation.
  assert (Hx : is_int 2) by by_evaluation.
  assert (Hu : is_int 1) by by_evaluation.
  apply (strategy_refs_back_to_back 1 2 1 1 2 1 witness_buffer 1
           (layout 1 2 1 1) (layout 4 2 1 1) 3 H1 H1 H1 Hx Hu Hx Hu).
  - vm_compute. reflexivity.
  - vm_compute. reflexivity.
  - vm_compute. reflexivity.
  - apply list_elem_of_here.
  - apply list_elem_of_here.
Defined.

(** ** When [Strategy(horizon, xdim, udim)] is defined *)

(** X9.  [Strategy(horizon, xdim, udim)] fails exactly when it has at least
    one time step to fill and a dimension is negative; with a horizon of
    [0] it builds the empty strategy whatever the dimensions are. *)
Theorem strategy_make_defined horizon xdim udim :
  0 ≤ horizon →
  (is_Some (Strategy.make horizon xdim udim)
   ↔ horizon = 0 ∨ (0 ≤ xdim ∧ 0 ≤ udim)) ∧
  Strategy.make 0 xdim udim = Some (Strategy.mk [] []).
Proof.
  intros Hh. split; [|done]. split.
  - intros [s Hs]. apply Strategy_make_Some in Hs as [_ Hdims].
    destruct (decide (horizon = 0)) as [->|Hne]; [by left|].
    right. apply Hdims. lia.
  - intros [->|[Hx Hu]]; [done|]. by rewrite Strategy_make_total.
Qed.

Lemma strategy_make_defined_witness :
  Strategy.make 3 (-1) 2 = None ∧ is_Some (Strategy.make 0 (-1) 2).
Proof.
  destruct (strategy_make_defined 3 (-1) 2 ltac:(by_evaluation)) as [Hiff _].
  destruct (strategy_make_defined 0 (-1) 2 ltac:(by_evaluation)) as [Hiff0 _].
  split.
  - destruct (Strategy.make 3 (-1) 2) as [s|] eqn:Hs; [|reflexivity].
    destruct (proj1 Hiff (ex_intro _ s eq_refl)) as [Heq|[Hneg _]].
    + discriminate Heq.
    + exfalso. apply Hneg. reflexivity.
  - apply (proj2 Hiff0). left. reflexivity.
Defined.

(** ** [sgn], further *)

(** X10.  On [float], [sgn] always returns one of [1.0], [-1.0] and [+0.0],
    never a NaN or an infinity; it returns [+0.0] exactly on the values that
    are neither above nor below zero (both zeros and NaN), so the sign of a
    negative zero is dropped; and [sgn(sgn(x)) = sgn(x)]. *)
Theorem sgn_float_range (f : float) :
  (@sgn float float_arith f = float_of_Z 1 ∨
   @sgn float float_arith f = float_of_Z (-1) ∨
   @sgn float float_arith f = fzero) ∧
  is_finite (@sgn float float_arith f) = true ∧
  (@sgn float float_arith f = fzero ↔ flt fzero f = false ∧ flt f fzero = false) ∧
  @sgn float float_arith (@sgn float float_arith f) = @sgn float float_arith f.
Proof.
  assert (Hcases :
    (flt fzero f = true ∧ flt f fzero = false ∧ @sgn float float_arith f = float_of_Z 1) ∨
    (flt fzero f = false ∧ flt f fzero = true ∧ @sgn float float_arith f = float_of_Z (-1)) ∨
    (flt fzero f = false ∧ flt f fzero = false ∧ @sgn float float_arith f = fzero)).
  { destruct f as [[]|[]| |[] m e]; vm_compute; auto. }
  destruct Hcases as [(Hp & Hn & ->)|[(Hp & Hn & ->)|(Hp & Hn & ->)]];
    rewrite Hp, Hn.
  - split; [by left|]. split; [done|]. split; [|done]. split; [done|]. by intros [? _].
  - split; [by right; left|]. split; [done|]. split; [|done]. split; [done|]. by intros [_ ?].
  - split; [by right; right|]. by repeat split.
Qed.

(** On the signed integers [sgn] is the sign function of [Z]. *)
Lemma sgn_signed_int_Zsgn w x :
  2 ≤ w → - 2 ^ (w - 1) ≤ x < 2 ^ (w - 1) → @sgn Z (signed_int w) x = Z.sgn x.
Proof.
  intros Hw Hx. destruct (pow2_split w ltac:(lia)) as [Hpow Hpos].
  destruct (pow2_split (w - 1) ltac:(lia)) as [Hpow' Hpos'].
  unfold sgn, sgn_signed; simpl. rewrite (wrap_signed_id w 0) by lia.
  destruct (Z.ltb_spec 0 x), (Z.ltb_spec x 0); simpl;
    rewrite wrap_signed_id by lia; lia.
Qed.

(** X11.  On a signed integer type, [sgn] is idempotent, monotone,
    multiplicative on products that fit the type, and odd except at the
    least value of the type (whose negation does not fit). *)
Theorem sgn_signed_int_algebra w x y :
  2 ≤ w → - 2 ^ (w - 1) ≤ x < 2 ^ (w - 1) → - 2 ^ (w - 1) ≤ y < 2 ^ (w - 1) →
  @sgn Z (signed_int w) (@sgn Z (signed_int w) x) = @sgn Z (signed_int w) x ∧
  (x ≤ y → @sgn Z (signed_int w) x ≤ @sgn Z (signed_int w) y) ∧
  (- 2 ^ (w - 1) ≤ x * y < 2 ^ (w - 1) →
     @sgn Z (signed_int w) (x * y)
     = @sgn Z (signed_int w) x * @sgn Z (signed_int w) y) ∧
  (- 2 ^ (w - 1) < x → @sgn Z (signed_int w) (- x) = - @sgn Z (signed_int w) x).
Proof.
  intros Hw Hx Hy. destruct (pow2_split w ltac:(lia)) as [Hpow Hpos].
  destruct (pow2_split (w - 1) ltac:(lia)) as [Hpow' Hpos'].
  rewrite (sgn_signed_int_Zsgn w x), (sgn_signed_int_Zsgn w y) by done.
  split; [|split; [|split]].
  - rewrite sgn_signed_int_Zsgn by lia. lia.
  - lia.
  - intros Hxy. rewrite sgn_signed_int_Zsgn by done. apply Z.sgn_mul.
  - intros Hmin. rewrite sgn_signed_int_Zsgn by lia. apply Z.sgn_opp.
Qed.

Lemma sgn_signed_int_algebra_witness :
  @sgn Z (signed_int 8) ((-3) * 5) = @sgn Z (signed_int 8) (-3) * @sgn Z (signed_int 8) 5.
Proof.
  destruct (sgn_signed_int_algebra 8 (-3) 5) as (_ & _ & Hmul & _);
    [by_evaluation..|].
  apply Hmul. by_evaluation.
Defined.

(** ** [TopDownRenderer] *)

(** X12.  [HeadingToWindowCoordinates] is its own inverse, on every
    [float]: converting a heading to window coordinates twice gives the
    heading back. *)
Theorem heading_to_window_involutive (heading : float) :
  TopDownRenderer.HeadingToWindowCoordinates
    (TopDownRenderer.HeadingToWindowCoordinates heading) = heading.
Proof. by destruct heading as [[]|[]| |[] m e]. Qed.

(** X16.  At a zoom level of zero the two length conversions are not
    inverse to each other: [PixelsToLength] never returns a finite length,
    and [PixelsToLength(LengthToPixels(l))] is NaN for every [l]. *)
Theorem zero_zoom_conversions (sign : bool) (l : float) :
  is_finite (TopDownRenderer.PixelsToLength (S754_zero sign) l) = false ∧
  TopDownRenderer.PixelsToLength (S754_zero sign)
    (TopDownRenderer.LengthToPixels (S754_zero sign) l) = S754_nan.
Proof. by destruct sign, l as [[]|[]| |[] m e]. Qed.

Section Renderer.
Context {ControlSliders SolverLog : Type}.

Lemma check_logs_Forall (logs : list (option SolverLog)) :
  TopDownRenderer.check_logs logs = true ↔ Forall is_Some logs.
Proof.
  induction logs as [|[log|] logs IH]; simpl.
  - split; [by constructor|done].
  - rewrite IH. split; [by constructor|by inversion 1].
  - split; [done|]. inversion 1 as [|? ? [? ?]]. done.
Qed.

(** X13.  The constructor of [TopDownRenderer] returns exactly when the
    sliders are not null, no log is null and there are as many y indices and
    as many heading indices as x indices; otherwise a [CHECK] fails.  The
    renderer it returns holds its arguments and starts centred, with the
    last mouse position at the origin and 5 pixels per metre. *)
Theorem renderer_make_checked (sliders : option ControlSliders)
    (logs : list (option SolverLog)) (x_idxs y_idxs heading_idxs : list Z) :
  let result := TopDownRenderer.make sliders logs x_idxs y_idxs heading_idxs in
  ((∃ r, result = Returns r)
   ↔ is_Some sliders ∧ Forall is_Some logs ∧
     length x_idxs = length y_idxs ∧ length x_idxs = length heading_idxs) ∧
  ((¬ ∃ r, result = Returns r) → result = CheckFailure) ∧
  ∀ r, result = Returns r →
    r = TopDownRenderer.mk sliders logs x_idxs y_idxs heading_idxs
          (fzero, fzero) (fzero, fzero) (float_of_Z 5).
Proof.
  intros result. unfold result, TopDownRenderer.make.
  cbn [TopDownRenderer.sliders_ TopDownRenderer.x_idxs_ TopDownRenderer.y_idxs_
       TopDownRenderer.heading_idxs_].
  replace (float_of_double double_zero) with fzero by (vm_compute; reflexivity).
  replace (float_of_double (double_literal 5 0)) with (float_of_Z 5)
    by (vm_compute; reflexivity).
  set (T := @TopDownRenderer.t ControlSliders SolverLog).
  assert (Hfail : ∀ P : Prop, ¬ P →
    ((∃ r : T, CheckFailure = Returns r) ↔ P) ∧
    ((¬ ∃ r : T, CheckFailure = Returns r) → @CheckFailure T = CheckFailure) ∧
    ∀ r : T, CheckFailure = Returns r →
      r = TopDownRenderer.mk sliders logs x_idxs y_idxs heading_idxs
            (fzero, fzero) (fzero, fzero) (float_of_Z 5)).
  { intros P HnP. split; [split|split].
    - intros [r Hr]. discriminate Hr.
    - intros HP. by destruct HnP.
    - done.
    - intros r Hr. discriminate Hr. }
  destruct sliders as [sl|].
  2:{ apply Hfail. intros ([? ?] & _). done. }
  destruct (decide (length x_idxs = length y_idxs)) as [Hy|Hy].
  2:{ apply Hfail. intros (_ & _ & ? & _). done. }
  destruct (decide (length x_idxs = length heading_idxs)) as [Hh|Hh].
  2:{ apply Hfail. intros (_ & _ & _ & ?). done. }
  destruct (TopDownRenderer.check_logs logs) eqn:Hlogs.
  - apply check_logs_Forall in Hlogs. split; [split|split].
    + intros _. split; [by eexists|done].
    + intros _. by eexists.
    + intros Hno. destruct Hno. by eexists.
    + intros r Hr. by injection Hr as <-.
  - apply Hfail. intros (_ & HF & _).
    apply check_logs_Forall in HF. congruence.
Qed.
End Renderer.

(** ** The accessors and the initial strategies of the example *)



(** X15.  For every system whose state and control dimensions are not
    negative, the example's "Set up initial strategies" succeeds and leaves
    one strategy per player: the zero strategy over 20 time steps with that
    player's control dimension, whose [NumVariables()] is
    [20 * (udim * xdim + udim)] whenever that number fits [size_t]. *)
Theorem example_initial_strategies XDim NumPlayers UDim :
  0 ≤ XDim →
  (∀ ii, (ii < NumPlayers)%nat → 0 ≤ UDim ii) →
  ∃ strategies_,
    OnePlayerReachabilityExample.initial_strategies XDim NumPlayers UDim
      = Some strategies_ ∧
    length strategies_ = NumPlayers ∧
    ∀ ii s, strategies_ !! ii = Some s →
      s = zero_strategy 20 XDim (UDim ii) ∧
      (20 * (UDim ii * XDim + UDim ii) ≤ SIZE_MAX →
       Strategy.NumVariables s = Returns (20 * (UDim ii * XDim + UDim ii))).
Proof.
  intros HX HU. unfold OnePlayerReachabilityExample.initial_strategies.
  set (I := λ (kk : nat) (ss : list Strategy.t),
    ss = (λ ii, zero_strategy 20 XDim (UDim ii)) <$> seq 0 kk).
  destruct (for_loop_total
              (λ ii strategies_,
                 s ← OnePlayerReachabilityExample.initial_strategy XDim (UDim ii);
                 Some (strategies_ ++ [s])) I NumPlayers 0 [])
    as (ss & Hss & HI); [done| |].
  - intros ii ss Hii ->. rewrite initial_strategy_zero by (try apply HU; lia).
    simpl. eexists. split; [done|]. unfold I. by rewrite seq_S, fmap_app.
  - exists ss. split; [done|]. unfold I in HI. simpl in HI. subst ss.
    split; [by rewrite length_fmap, length_seq|].
    intros ii s Hs.
    apply list_lookup_fmap_Some in Hs as (k & -> & Hk).
    apply lookup_seq in Hk as [-> Hii]. simpl.
    split; [done|]. intros Hfit. specialize (HU ii Hii).
    apply (NumVariables_zero_strategy 20 XDim (UDim ii)); [lia|lia|lia|].
    change (Z.of_nat 20) with 20. unfold SIZE_MAX in Hfit. lia.
Qed.

Lemma example_initial_strategies_witness :
  ∃ strategies_,
    OnePlayerReachabilityExample.initial_strategies 4 1 (λ _, 1) = Some strategies_ ∧
    length strategies_ = 1%nat ∧
    ∃ s, strategies_ !! 0%nat = Some s ∧ Strategy.NumVariables s = Returns 100.
Proof.
  destruct (example_initial_strategies 4 1 (λ _, 1)) as (ss & Hss & Hlen & Hall).
  - by_evaluation.
  - intros ii _. by_evaluation.
  - exists ss. split; [exact Hss|]. split; [exact Hlen|].
    destruct ss as [|s ss]; [discriminate Hlen|].
    exists s. split; [reflexivity|].
    destruct (Hall 0%nat s eq_refl) as [_ Hnum]. apply Hnum. by_evaluation.
Defined.

(** ** The sizes that [Strategy(other, op, player_idx)] allocates *)

(** X8.  [Strategy(other, op, player_idx)] takes its number of gains from
    [other.Ps] and its number of feedforward terms from [other.alphas], and
    fills as many of both as there are gains.  So it is defined only if
    [other] has at least as many feedforward terms as gains, and the
    feedforward terms past the last gain are left empty. *)
Theorem strategy_from_ref_sizes primals other op player_idx s :
  Strategy.from_ref primals other op player_idx = Some s →
  length (Strategy.Ps s) = length (StrategyRef.Ps other) ∧
  length (Strategy.alphas s) = length (StrategyRef.alphas other) ∧
  (length (StrategyRef.Ps other) ≤ length (StrategyRef.alphas other))%nat ∧
  ∀ t, (length (StrategyRef.Ps other) ≤ t < length (StrategyRef.alphas other))%nat →
    Strategy.alphas s !! t = Some [].
Proof.
  intros Hs. apply Strategy_from_ref_Some in Hs as (HlP & Hla & Hdone & Hrest).
  split; [done|]. split; [done|]. split.
  - destruct (length (StrategyRef.Ps other)) as [|n] eqn:Hn; [lia|].
    destruct (Hdone n) as (P & a & u & x & r & Hreads & _); [lia|].
    destruct Hreads as (_ & (ra & Hra & _) & _).
    apply lookup_lt_Some in Hra. lia.
  - intros t [Hge Hlt]. apply Hrest; [done|]. by rewrite Hla.
Qed.

Lemma strategy_from_ref_sizes_witness :
  ∃ s, Strategy.from_ref witness_buffer
         (StrategyRef.mk [Eigen.mkMap 0 1 1] [Eigen.mkRef 1 1; Eigen.mkRef 3 1])
         witness_op 0 = Some s ∧
       Strategy.alphas s !! 1%nat = Some [] ∧
       Strategy.NumVariables s = CheckFailure.
Proof.
  destruct (Strategy.from_ref witness_buffer
              (StrategyRef.mk [Eigen.mkMap 0 1 1] [Eigen.mkRef 1 1; Eigen.mkRef 3 1])
              witness_op 0) as [s|] eqn:Hs; [|vm_compute in Hs; discriminate Hs].
  exists s. split; [reflexivity|].
  destruct (strategy_from_ref_sizes _ _ _ _ _ Hs) as (HlP & Hla & _ & Hrest).
  split; [apply Hrest; by_evaluation|].
  unfold Strategy.NumVariables. rewrite HlP, Hla. reflexivity.
Defined.
